(** * Bitcoin transaction hex decoder: shallow embedding and verification

    Embedding of [transaction_decoder.py] (functions [read_bytes],
    [read_varint], [parse_transaction]) together with the Python built-ins the
    decoder relies on: string slicing, [int(s, 16)], [bytes.fromhex],
    [int.from_bytes(.., 'little')], [bytes.hex] and true division by [1e8].

    Conventions.
    - A Python [str] is a list of characters; characters are code points
      below 256 (type [ascii]).
    - A Python [int] is a [Z]; [bytes] is a list of [byte].
    - The only exception the decoder can raise on a [str] argument is
      [ValueError] (from [int] and [bytes.fromhex]); a call either returns a
      value or raises.
    - The cursor [offset] counts hexadecimal characters, as in the source
      (two per byte). *)

From Stdlib Require Import ZArith List Bool Lia.
From Stdlib Require Import Strings.Ascii Strings.String Strings.Byte.
From Stdlib Require Import Floats.SpecFloat.
Import ListNotations.

Local Open Scope Z_scope.

(** ** Python built-ins *)

Module Py.

Definition str := list ascii.
Definition bytes := list byte.

Inductive exn : Type := ValueError.

Inductive result (A : Type) : Type :=
| Ok (a : A)
| Raise (e : exn).
Arguments Ok {A} a.
Arguments Raise {A} e.

Definition bind {A B} (m : result A) (k : A -> result B) : result B :=
  match m with
  | Ok a => k a
  | Raise e => Raise e
  end.

Definition code (c : ascii) : Z := Z.of_N (N_of_ascii c).

Definition len {A} (s : list A) : Z := Z.of_nat (List.length s).

(** [PySlice_AdjustIndices] with step 1: a negative index counts from the
    end, and both indices are clipped to [0, len]. *)
Definition adjust_index (n i : Z) : Z :=
  if i <? 0 then Z.max 0 (i + n) else Z.min i n.

(** [s[start:stop]] *)
Definition slice {A} (s : list A) (start stop : Z) : list A :=
  let a := adjust_index (len s) start in
  let b := adjust_index (len s) stop in
  firstn (Z.to_nat (b - a)) (skipn (Z.to_nat a) s).

(** [_PyLong_DigitValue]: 0-9, then letters of either case from 10 on, and
    37 for every other character. *)
Definition digit_value (c : ascii) : Z :=
  let n := code c in
  if (48 <=? n) && (n <=? 57) then n - 48
  else if (97 <=? n) && (n <=? 122) then n - 87
  else if (65 <=? n) && (n <=? 90) then n - 55
  else 37.

Definition is_hex (c : ascii) : bool := digit_value c <? 16.

(** [Py_ISSPACE]: tab, newline, vertical tab, form feed, carriage return,
    space. *)
Definition is_space (c : ascii) : bool :=
  let n := code c in ((9 <=? n) && (n <=? 13)) || (n =? 32).

(** Blanks of [int(str)]: above ASCII the string is first normalised, which
    turns U+0085 and U+00A0 into a space and every other such character into
    an invalid one. *)
Definition int_space (c : ascii) : bool :=
  let n := code c in is_space c || (n =? 133) || (n =? 160).

Fixpoint lstrip (s : str) : str :=
  match s with
  | c :: s' => if int_space c then lstrip s' else s
  | [] => []
  end.

Definition underscore : ascii := "_"%char.

(** Digits with single underscores between them; [prev] tells whether the
    previous character was an underscore.  Returns the value read and the
    rest of the string. *)
Fixpoint scan_digits (s : str) (prev : bool) (acc : Z) : option (Z * str) :=
  match s with
  | c :: s' =>
      if Ascii.eqb c underscore then
        if prev then None else scan_digits s' true acc
      else if is_hex c then scan_digits s' false (acc * 16 + digit_value c)
      else if prev then None else Some (acc, s)
  | [] => if prev then None else Some (acc, [])
  end.

Definition skip_sign (s : str) : Z * str :=
  match s with
  | c :: s' =>
      if Ascii.eqb c "+"%char then (1, s')
      else if Ascii.eqb c "-"%char then (-1, s')
      else (1, s)
  | [] => (1, s)
  end.

Definition skip_prefix (s : str) : str :=
  match s with
  | z :: x :: s' =>
      if Ascii.eqb z "0"%char && (Ascii.eqb x "x"%char || Ascii.eqb x "X"%char)
      then match s' with
           | u :: s'' => if Ascii.eqb u underscore then s'' else s'
           | [] => s'
           end
      else s
  | _ => s
  end.

(** [int(s, 16)] *)
Definition int16 (s : str) : result Z :=
  let '(sign, s1) := skip_sign (lstrip s) in
  let s2 := skip_prefix s1 in
  match s2 with
  | [] => Raise ValueError
  | c :: _ =>
      if is_hex c then
        match scan_digits s2 false 0 with
        | Some (v, rest) =>
            match lstrip rest with
            | [] => Ok (sign * v)
            | _ :: _ => Raise ValueError
            end
        | None => Raise ValueError
        end
      else Raise ValueError
  end.

Definition byte_of_nibbles (hi lo : Z) : byte :=
  match Byte.of_N (Z.to_N (16 * hi + lo)) with
  | Some b => b
  | None => x00
  end.

(** [bytes.fromhex(s)]: blanks are skipped between bytes, each byte is two
    hexadecimal digits. *)
Fixpoint fromhex (s : str) : result bytes :=
  match s with
  | [] => Ok []
  | c :: s' =>
      if is_space c then fromhex s'
      else if is_hex c then
        match s' with
        | d :: s'' =>
            if is_hex d then
              bind (fromhex s'')
                   (fun bs => Ok (byte_of_nibbles (digit_value c) (digit_value d) :: bs))
            else Raise ValueError
        | [] => Raise ValueError
        end
      else Raise ValueError
  end.

Definition byte_value (b : byte) : Z := Z.of_N (Byte.to_N b).

(** [int.from_bytes(bs, byteorder='little')] *)
Fixpoint int_from_bytes_little (bs : bytes) : Z :=
  match bs with
  | [] => 0
  | b :: bs' => byte_value b + 256 * int_from_bytes_little bs'
  end.

Definition hex_char (d : Z) : ascii :=
  ascii_of_N (Z.to_N (if d <? 10 then 48 + d else 87 + d)).

(** [bs.hex()] *)
Definition hex (bs : bytes) : str :=
  flat_map (fun b => [hex_char (byte_value b / 16); hex_char (byte_value b mod 16)]) bs.

(** [bs[::-1]] *)
Definition reversed (bs : bytes) : bytes := rev bs.

(** Python floats are IEEE binary64. *)
Definition prec : Z := 53.
Definition emax : Z := 1024.

(** [float(n)] for an [int] (round to nearest, ties to even). *)
Definition float_of_int (n : Z) : spec_float := binary_normalize prec emax n 0 false.

(** [n / 1e8] with [n] an [int]. *)
Definition div_1e8 (n : Z) : spec_float :=
  SFdiv prec emax (float_of_int n) (float_of_int 100000000).

(** [range(n)] runs [max 0 n] times. *)
Definition range_len (n : Z) : nat := Z.to_nat n.

End Py.

Import Py.

Notation "' p <- m ;; k" := (Py.bind m (fun p => k))
  (at level 61, p pattern, m at next level, right associativity).
Notation "x <- m ;; k" := (Py.bind m (fun x => k))
  (at level 61, m at next level, right associativity).

(** A string literal as a Python [str]. *)
Definition lit (x : string) : str := list_ascii_of_string x.

(** ** The decoder *)

(** [read_bytes(tx_hex, offset, length)] *)
Definition read_bytes (tx_hex : str) (offset length : Z) : result (bytes * Z) :=
  bytes_data <- fromhex (slice tx_hex offset (offset + length * 2)) ;;
  Ok (bytes_data, offset + length * 2).

(** [read_varint(tx_hex, offset)] *)
Definition read_varint (tx_hex : str) (offset : Z) : result (Z * Z) :=
  first_byte <- int16 (slice tx_hex offset (offset + 2)) ;;
  let offset := offset + 2 in
  if first_byte <? 253 then Ok (first_byte, offset)
  else if first_byte =? 253 then
    value <- int16 (slice tx_hex offset (offset + 4)) ;;
    Ok (value, offset + 4)
  else if first_byte =? 254 then
    value <- int16 (slice tx_hex offset (offset + 8)) ;;
    Ok (value, offset + 8)
  else
    value <- int16 (slice tx_hex offset (offset + 16)) ;;
    Ok (value, offset + 16).

(** A piece of the decoder that reads at a cursor and returns the new one. *)
Definition reader (A : Type) : Type := str -> Z -> result (A * Z).

(** The loops of [parse_transaction] all have the shape
    [for _ in range(n): x, offset = body(offset); acc.append(x)];
    [n] is the number of iterations left and [acc] the list built so far. *)
Fixpoint for_range {A} (body : reader A) (tx_hex : str) (n : nat) (offset : Z)
         (acc : list A) : result (list A * Z) :=
  match n with
  | O => Ok (acc, offset)
  | S n' =>
      '(a, offset) <- body tx_hex offset ;;
      for_range body tx_hex n' offset (acc ++ [a])
  end.

Record tx_input : Type := {
  txid : str;
  vout : Z;
  scriptSig : str;
  sequence : Z
}.

Record tx_output : Type := {
  value : spec_float;
  scriptPubKey : str
}.

Record transaction : Type := {
  version : Z;
  segwit : bool;
  inputs : list tx_input;
  outputs : list tx_output;
  witnesses : list (list str);
  locktime : Z
}.

(** Body of the input loop. *)
Definition parse_input (tx_hex : str) (offset : Z) : result (tx_input * Z) :=
  '(txid_bytes, offset) <- read_bytes tx_hex offset 32 ;;
  let txid := hex (reversed txid_bytes) in
  '(vout_bytes, offset) <- read_bytes tx_hex offset 4 ;;
  let vout := int_from_bytes_little vout_bytes in
  '(script_len, offset) <- read_varint tx_hex offset ;;
  '(script_sig_bytes, offset) <- read_bytes tx_hex offset script_len ;;
  '(sequence_bytes, offset) <- read_bytes tx_hex offset 4 ;;
  let sequence := int_from_bytes_little sequence_bytes in
  Ok ({| txid := txid; vout := vout;
         scriptSig := hex script_sig_bytes; sequence := sequence |}, offset).

(** [for _ in range(input_count)] *)
Definition parse_inputs (tx_hex : str) (n : nat) (offset : Z) (inputs : list tx_input)
  : result (list tx_input * Z) :=
  for_range parse_input tx_hex n offset inputs.

(** Body of the output loop. *)
Definition parse_output (tx_hex : str) (offset : Z) : result (tx_output * Z) :=
  '(value_bytes, offset) <- read_bytes tx_hex offset 8 ;;
  let value := div_1e8 (int_from_bytes_little value_bytes) in
  '(script_len, offset) <- read_varint tx_hex offset ;;
  '(script_pubkey_bytes, offset) <- read_bytes tx_hex offset script_len ;;
  Ok ({| value := value; scriptPubKey := hex script_pubkey_bytes |}, offset).

(** [for _ in range(output_count)] *)
Definition parse_outputs (tx_hex : str) (n : nat) (offset : Z) (outputs : list tx_output)
  : result (list tx_output * Z) :=
  for_range parse_output tx_hex n offset outputs.

(** Body of the inner witness loop. *)
Definition parse_witness_item (tx_hex : str) (offset : Z) : result (str * Z) :=
  '(item_len, offset) <- read_varint tx_hex offset ;;
  '(item_bytes, offset) <- read_bytes tx_hex offset item_len ;;
  Ok (hex item_bytes, offset).

(** Body of the outer witness loop: the item count, then
    [for _ in range(witness_count)] from an empty [witness_items]. *)
Definition parse_witness (tx_hex : str) (offset : Z) : result (list str * Z) :=
  '(witness_count, offset) <- read_varint tx_hex offset ;;
  for_range parse_witness_item tx_hex (range_len witness_count) offset [].

(** [for i in range(input_count)] *)
Definition parse_witnesses (tx_hex : str) (n : nat) (offset : Z) (witnesses : list (list str))
  : result (list (list str) * Z) :=
  for_range parse_witness tx_hex n offset witnesses.

(** The SegWit check made right after the version: marker and flag are read
    without moving the cursor, which advances only when both match. *)
Definition check_segwit (tx_hex : str) (offset : Z) : result (bool * Z) :=
  marker <- int16 (slice tx_hex offset (offset + 2)) ;;
  flag <- int16 (slice tx_hex (offset + 2) (offset + 4)) ;;
  if (marker =? 0) && negb (flag =? 0) then Ok (true, offset + 4)
  else Ok (false, offset).

(** [parse_transaction], returning the final cursor next to the record. *)
Definition parse_transaction_cursor (tx_hex : str) : result (transaction * Z) :=
  let offset := 0 in
  '(version_bytes, offset) <- read_bytes tx_hex offset 4 ;;
  let version := int_from_bytes_little version_bytes in
  '(segwit, offset) <- check_segwit tx_hex offset ;;
  '(input_count, offset) <- read_varint tx_hex offset ;;
  '(inputs, offset) <- parse_inputs tx_hex (range_len input_count) offset [] ;;
  '(output_count, offset) <- read_varint tx_hex offset ;;
  '(outputs, offset) <- parse_outputs tx_hex (range_len output_count) offset [] ;;
  '(witnesses, offset) <-
     (if segwit : bool then parse_witnesses tx_hex (range_len input_count) offset []
      else Ok ([], offset)) ;;
  '(locktime_bytes, offset) <- read_bytes tx_hex offset 4 ;;
  let locktime := int_from_bytes_little locktime_bytes in
  Ok ({| version := version; segwit := segwit; inputs := inputs;
         outputs := outputs; witnesses := witnesses; locktime := locktime |},
      offset).

(** [parse_transaction(tx_hex)] *)
Definition parse_transaction (tx_hex : str) : result transaction :=
  '(tx, _) <- parse_transaction_cursor tx_hex ;; Ok tx.

(** The transaction hard-coded in the [__main__] block. *)
Definition sample_tx_hex : str :=
  lit "0200000000010131811cd355c357e0e01437d9bcf690df824e9ff785012b6115dfae3d8e8b36c10100000000fdffffff0220a107000000000016001485d78eb795bd9c8a21afefc8b6fdaedf718368094c08100000000000160014840ab165c9c2555d4a31b9208ad806f89d2535e20247304402207bce86d430b58bb6b79e8c1bbecdf67a530eff3bc61581a1399e0b28a741c0ee0220303d5ce926c60bf15577f2e407f28a2ef8fe8453abd4048b716e97dbb1e3a85c01210260828bc77486a55e3bc6032ccbeda915d9494eda17b4a54dbe3b24506d40e4ff43030e00".

(** ** Vocabulary of the statements *)

(** The record [parse_transaction] returns for [sample_tx_hex]. *)
Definition sample_tx : transaction :=
  {| version := 2;
     segwit := true;
     inputs :=
       [ {| txid := lit "c1368b8e3daedf15612b0185f79f4e82df90f6bcd93714e0e057c355d31c8131";
            vout := 1;
            scriptSig := [];
            sequence := 0xfffffffd |} ];
     outputs :=
       [ {| value := div_1e8 500000;
            scriptPubKey := lit "001485d78eb795bd9c8a21afefc8b6fdaedf71836809" |};
         {| value := div_1e8 1050700;
            scriptPubKey := lit "0014840ab165c9c2555d4a31b9208ad806f89d2535e2" |} ];
     witnesses :=
       [ [ lit "304402207bce86d430b58bb6b79e8c1bbecdf67a530eff3bc61581a1399e0b28a741c0ee0220303d5ce926c60bf15577f2e407f28a2ef8fe8453abd4048b716e97dbb1e3a85c01";
           lit "0260828bc77486a55e3bc6032ccbeda915d9494eda17b4a54dbe3b24506d40e4ff" ] ];
     locktime := 0x000e0343 |}.

(** A legacy (non-SegWit) transaction: version 1, one input (txid bytes
    00 .. 1f, vout 0, empty script, sequence 0xffffffff), one output of
    1000 satoshis with an empty script, locktime 0. *)
Definition legacy_tx_hex : str :=
  lit "0100000001000102030405060708090a0b0c0d0e0f101112131415161718191a1b1c1d1e1f0000000000ffffffff01e8030000000000000000000000".

(** A legacy (non-SegWit) encoding with no input and one output of 1000
    satoshis with an empty script: version 1, input count 00, output
    count 01, the output, locktime 0. *)
Definition legacy_zero_input_hex : str :=
  lit "010000000001e8030000000000000000000000".


(** [t] with another locktime. *)
Definition with_locktime (t : transaction) (v : Z) : transaction :=
  {| version := version t; segwit := segwit t; inputs := inputs t;
     outputs := outputs t; witnesses := witnesses t; locktime := v |}.

(** The reads of a decode that come before the locktime, with the cursor
    after each of them. *)
Record stages : Type := {
  after_segwit : Z;
  input_count : Z;
  after_input_count : Z;
  after_inputs : Z;
  output_count : Z;
  after_output_count : Z;
  after_outputs : Z;
  after_witnesses : Z
}.

Definition stages_hold (tx : str) (t : transaction) (c : stages) : Prop :=
  (exists version_bytes,
     read_bytes tx 0 4 = Ok (version_bytes, 8) /\
     version t = int_from_bytes_little version_bytes) /\
  check_segwit tx 8 = Ok (segwit t, after_segwit c) /\
  read_varint tx (after_segwit c) = Ok (input_count c, after_input_count c) /\
  parse_inputs tx (range_len (input_count c)) (after_input_count c) []
  = Ok (inputs t, after_inputs c) /\
  read_varint tx (after_inputs c) = Ok (output_count c, after_output_count c) /\
  parse_outputs tx (range_len (output_count c)) (after_output_count c) []
  = Ok (outputs t, after_outputs c) /\
  (if segwit t
   then parse_witnesses tx (range_len (input_count c)) (after_outputs c) []
   else Ok ([], after_outputs c))
  = Ok (witnesses t, after_witnesses c).

(** A string made of hexadecimal digits only. *)
Definition all_hex (x : str) : bool := forallb is_hex x.

(** Two strings that share their first [m] characters. *)
Definition same_prefix (m : Z) (x y : str) : Prop :=
  m <= len x /\ m <= len y /\ firstn (Z.to_nat m) x = firstn (Z.to_nat m) y.

(** Value of a digit string read most significant digit first. *)
Definition be_value (x : str) : Z :=
  fold_left (fun acc c => acc * 16 + digit_value c) x 0.

(** Bytes spelled by consecutive pairs of digits. *)
Fixpoint digit_pairs (x : str) : bytes :=
  match x with
  | c :: d :: x' => byte_of_nibbles (digit_value c) (digit_value d) :: digit_pairs x'
  | _ => []
  end.

(** [tx] cut [k] bytes (two characters each) before its end. *)
Definition drop_last_bytes (k : Z) (tx : str) : str :=
  firstn (Z.to_nat (len tx - 2 * k)) tx.

(** [l] lists, first to last, the results of running [body] repeatedly from
    cursor [o], ending at cursor [o']. *)
Inductive in_order {A} (body : reader A) (tx : str)
  : Z -> list A -> Z -> Prop :=
| in_order_nil (o : Z) : in_order body tx o [] o
| in_order_cons (o o1 o' : Z) (a : A) (l : list A) :
    body tx o = Ok (a, o1) -> in_order body tx o1 l o' ->
    in_order body tx o (a :: l) o'.

(** On a string of hexadecimal digits, a successful read returns a value
    satisfying [P], does not move the cursor backwards, and depends only on
    the characters before the new cursor. *)
Definition reads {A} (P : A -> Prop) (p : reader A) : Prop :=
  forall tx o x o',
    all_hex tx = true -> 0 <= o -> p tx o = Ok (x, o') ->
    P x /\ o <= o' /\
    forall tx', same_prefix o' tx tx' -> p tx' o = Ok (x, o').

(** The successive reads of one successful decode, in source order. *)
Inductive decoded (tx : str) : transaction -> Z -> Prop :=
| Decoded (version_bytes : bytes) (sw : bool) (o1 input_count o2 : Z)
          (ins : list tx_input) (o3 output_count o4 : Z)
          (outs : list tx_output) (o5 : Z) (wits : list (list str)) (o6 : Z)
          (locktime_bytes : bytes) :
    read_bytes tx 0 4 = Ok (version_bytes, 8) ->
    check_segwit tx 8 = Ok (sw, o1) ->
    read_varint tx o1 = Ok (input_count, o2) ->
    parse_inputs tx (range_len input_count) o2 [] = Ok (ins, o3) ->
    read_varint tx o3 = Ok (output_count, o4) ->
    parse_outputs tx (range_len output_count) o4 [] = Ok (outs, o5) ->
    (if sw then parse_witnesses tx (range_len input_count) o5 []
     else Ok ([], o5)) = Ok (wits, o6) ->
    read_bytes tx o6 4 = Ok (locktime_bytes, o6 + 8) ->
    decoded tx
      {| version := int_from_bytes_little version_bytes; segwit := sw;
         inputs := ins; outputs := outs; witnesses := wits;
         locktime := int_from_bytes_little locktime_bytes |}
      (o6 + 8).

Ltac bind_inv H :=
  match type of H with
  | bind ?m _ = Ok _ =>
      let E := fresh "E" in
      destruct m as [[? ?]|?] eqn:E; [cbn [bind] in H | discriminate H]
  end.

(** ASCII lower case of a character. *)
Definition lower (c : ascii) : ascii :=
  let n := code c in
  if (65 <=? n) && (n <=? 90) then ascii_of_N (Z.to_N (n + 32)) else c.

(** A text as [bytes.hex] prints it: lower-case hexadecimal digits, two
    per byte. *)
Definition hex_text (x : str) : Prop :=
  all_hex x = true /\ Z.even (len x) = true /\ map lower x = x.

(** Number of characters of [tx] a read of [n] bytes at cursor [o] gets. *)
Definition available (tx : str) (o n : Z) : Z :=
  Z.max 0 (Z.min (n * 2) (len tx - o)).

(** [sample_tx_hex] written with capital letters. *)
Definition sample_tx_hex_upper : str :=
  lit "0200000000010131811CD355C357E0E01437D9BCF690DF824E9FF785012B6115DFAE3D8E8B36C10100000000FDFFFFFF0220A107000000000016001485D78EB795BD9C8A21AFEFC8B6FDAEDF718368094C08100000000000160014840AB165C9C2555D4A31B9208AD806F89D2535E20247304402207BCE86D430B58BB6B79E8C1BBECDF67A530EFF3BC61581A1399E0B28A741C0EE0220303D5CE926C60BF15577F2E407F28A2EF8FE8453ABD4048B716E97DBB1E3A85C01210260828BC77486A55E3BC6032CCBEDA915D9494EDA17B4A54DBE3B24506D40E4FF43030E00".

(** Digit values of a list of digit values read as pairs, high nibble
    first. *)
Fixpoint value_pairs (ds : list Z) : bytes :=
  match ds with
  | hi :: lo :: ds' => byte_of_nibbles hi lo :: value_pairs ds'
  | _ => []
  end.

Ltac same_step :=
  match goal with
  | |- bind ?m _ = bind ?m _ =>
      destruct m as [[? ?]|?]; [cbn [bind] | reflexivity]
  end.

(** The record [parse_transaction] returns for [legacy_tx_hex]. *)
Definition legacy_tx : transaction :=
  {| version := 1;
     segwit := false;
     inputs :=
       [ {| txid := lit "1f1e1d1c1b1a191817161514131211100f0e0d0c0b0a09080706050403020100";
            vout := 0; scriptSig := []; sequence := 0xffffffff |} ];
     outputs := [ {| value := div_1e8 1000; scriptPubKey := [] |} ];
     witnesses := [];
     locktime := 0 |}.

(** A legacy (non-SegWit) encoding with no input and one output of 0
    satoshis with an empty script: version 1, input count 00, output
    count 01, the output (value, script length 00), locktime 0. *)
Definition legacy_zero_input_zero_value_hex : str :=
  lit "01000000000100000000000000000000000000".

(** What the decoder returns for it: a SegWit record without the
    output. *)
Definition legacy_zero_input_zero_value_tx : transaction :=
  {| version := 1; segwit := true; inputs := []; outputs := [];
     witnesses := []; locktime := 0 |}.

(** A legacy transaction whose 64-character txid field holds the byte ab
    followed by 62 blanks; the rest is as in [legacy_tx_hex]. *)
Definition blank_txid_hex : str :=
  lit "0100000001ab                                                              0000000000ffffffff01e8030000000000000000000000".

(** What the decoder returns for it. *)
Definition blank_txid_tx : transaction :=
  {| version := 1;
     segwit := false;
     inputs :=
       [ {| txid := lit "ab"; vout := 0; scriptSig := []; sequence := 0xffffffff |} ];
     outputs := [ {| value := div_1e8 1000; scriptPubKey := [] |} ];
     witnesses := [];
     locktime := 0 |}.

(** As [in_order], with a property [Q] of each step: the cursor it starts
    at, its result and the cursor it ends at. *)
Inductive in_order_with {A} (body : reader A) (Q : Z -> A -> Z -> Prop) (tx : str)
  : Z -> list A -> Z -> Prop :=
| in_order_with_nil (o : Z) : in_order_with body Q tx o [] o
| in_order_with_cons (o o1 o' : Z) (a : A) (l : list A) :
    body tx o = Ok (a, o1) -> Q o a o1 -> in_order_with body Q tx o1 l o' ->
    in_order_with body Q tx o (a :: l) o'.

(** The reads of a decode of [tx] that returns [t] and ends at [o_end],
    once the SegWit decision [sw] is taken and the input count is read at
    cursor [o]: version, input count, inputs, output count, outputs,
    witnesses when [sw], locktime. *)
Definition decodes_from (tx : str) (sw : bool) (o : Z) (t : transaction) (o_end : Z)
  : Prop :=
  exists version_bytes count o2 o3 out_count o4 o5 o6 locktime_bytes,
    read_bytes tx 0 4 = Ok (version_bytes, 8) /\
    version t = int_from_bytes_little version_bytes /\
    segwit t = sw /\
    read_varint tx o = Ok (count, o2) /\
    parse_inputs tx (range_len count) o2 [] = Ok (inputs t, o3) /\
    read_varint tx o3 = Ok (out_count, o4) /\
    parse_outputs tx (range_len out_count) o4 [] = Ok (outputs t, o5) /\
    (if sw then parse_witnesses tx (range_len count) o5 [] else Ok ([], o5))
    = Ok (witnesses t, o6) /\
    read_bytes tx o6 4 = Ok (locktime_bytes, o_end) /\
    locktime t = int_from_bytes_little locktime_bytes.




(** The txid of the input read from cursor [o]: the bytes [read_bytes]
    returns for the 32-byte field at [o], reversed and hex-encoded; on
    hexadecimal input these are the 32 bytes the 64 characters at [o]
    spell. *)
Definition txid_field (tx : str) (o : Z) (i : tx_input) (o1 : Z) : Prop :=
  exists wire,
    read_bytes tx o 32 = Ok (wire, o + 64) /\
    txid i = hex (reversed wire) /\
    len (txid i) = 2 * len wire /\ len wire <= 32 /\
    (all_hex tx = true ->
     0 <= o /\ o + 64 <= len tx /\
     wire = digit_pairs (slice tx o (o + 64)) /\
     len wire = 32 /\ len (txid i) = 64).

(** ** Characters and slices *)

Lemma hex_char_plain (c : ascii) :
  is_hex c = true ->
  int_space c = false /\ is_space c = false /\
  Ascii.eqb c "+"%char = false /\ Ascii.eqb c "-"%char = false /\
  Ascii.eqb c underscore = false /\
  Ascii.eqb c "x"%char = false /\ Ascii.eqb c "X"%char = false /\
  (0 <=? digit_value c) && (digit_value c <? 16) = true.
Proof.
  destruct c as [[] [] [] [] [] [] [] []]; vm_compute; intro H;
    try discriminate H; repeat split.
Qed.

Lemma digit_value_hex (c : ascii) : is_hex c = true -> 0 <= digit_value c < 16.
Proof.
  intro H. apply hex_char_plain in H.
  destruct H as (_ & _ & _ & _ & _ & _ & _ & H).
  apply andb_true_iff in H. lia.
Qed.

Lemma len_nonneg {A} (x : list A) : 0 <= len x.
Proof. unfold len. lia. Qed.

Lemma len_app {A} (x y : list A) : len (x ++ y) = len x + len y.
Proof. unfold len. rewrite length_app. lia. Qed.

Lemma adjust_index_nonneg (n i : Z) : 0 <= n -> 0 <= i -> adjust_index n i = Z.min i n.
Proof.
  intros Hn Hi. unfold adjust_index.
  destruct (Z.ltb_spec i 0); [lia | reflexivity].
Qed.

Lemma slice_in_range {A} (x : list A) (a b : Z) :
  0 <= a <= b -> b <= len x ->
  slice x a b = firstn (Z.to_nat (b - a)) (skipn (Z.to_nat a) x).
Proof.
  intros Hab Hb. unfold slice.
  rewrite !adjust_index_nonneg by (pose proof (len_nonneg x); lia).
  rewrite !Z.min_l by lia. reflexivity.
Qed.

(** A slice that starts at or past the end is empty. *)
Lemma slice_past_end {A} (x : list A) (a b : Z) :
  0 <= a -> len x <= a -> slice x a b = [].
Proof.
  intros Ha Hl. unfold slice.
  rewrite (adjust_index_nonneg _ a) by (pose proof (len_nonneg x); lia).
  rewrite Z.min_r by lia.
  replace (skipn (Z.to_nat (len x)) x) with (@nil A); [apply firstn_nil|].
  unfold len. now rewrite Nat2Z.id, skipn_all.
Qed.

Lemma slice_length {A} (x : list A) (a b : Z) :
  0 <= a <= b -> b <= len x -> len (slice x a b) = b - a.
Proof.
  intros Hab Hb. rewrite slice_in_range by assumption.
  unfold len in *. rewrite length_firstn, length_skipn. lia.
Qed.

Lemma all_hex_firstn (n : nat) (x : str) : all_hex x = true -> all_hex (firstn n x) = true.
Proof.
  unfold all_hex. revert x. induction n as [|n IH]; intros [|c x]; simpl; auto.
  rewrite !andb_true_iff. intros [Hc Hx]. auto.
Qed.

Lemma all_hex_skipn (n : nat) (x : str) : all_hex x = true -> all_hex (skipn n x) = true.
Proof.
  unfold all_hex. revert x. induction n as [|n IH]; intros [|c x]; simpl; auto.
  rewrite andb_true_iff. intros [Hc Hx]. auto.
Qed.

Lemma all_hex_slice (x : str) (a b : Z) : all_hex x = true -> all_hex (slice x a b) = true.
Proof. intro H. unfold slice. now apply all_hex_firstn, all_hex_skipn. Qed.

Lemma same_prefix_le (m m' : Z) (x y : str) :
  same_prefix m x y -> m' <= m -> same_prefix m' x y.
Proof.
  intros (Hx & Hy & E) Hm. repeat split; try lia.
  assert (Hn : (Z.to_nat m' <= Z.to_nat m)%nat) by lia.
  rewrite <- (Nat.min_l _ _ Hn), <- !firstn_firstn. now rewrite E.
Qed.

Lemma slice_same_prefix (m : Z) (x y : str) (a b : Z) :
  same_prefix m x y -> 0 <= a <= b -> b <= m -> slice x a b = slice y a b.
Proof.
  intros (Hx & Hy & E) Hab Hb.
  rewrite !slice_in_range by lia.
  rewrite !firstn_skipn_comm.
  replace (Z.to_nat a + Z.to_nat (b - a))%nat with (Nat.min (Z.to_nat b) (Z.to_nat m)) by lia.
  rewrite <- !firstn_firstn. now rewrite E.
Qed.

Lemma same_prefix_app (x y : str) : same_prefix (len x) x (x ++ y).
Proof.
  unfold same_prefix. rewrite len_app. pose proof (len_nonneg y).
  repeat split; try lia.
  unfold len. rewrite Nat2Z.id, firstn_all, firstn_app, firstn_all, Nat.sub_diag.
  simpl. now rewrite app_nil_r.
Qed.

Lemma same_prefix_firstn (k : Z) (x : str) :
  0 <= k <= len x -> same_prefix k x (firstn (Z.to_nat k) x).
Proof.
  intros Hk. unfold same_prefix, len in *. rewrite length_firstn, firstn_firstn.
  repeat split; try lia. now rewrite Nat.min_id.
Qed.

(** A slice of a truncated string that runs over the cut. *)
Lemma slice_firstn_over (k : Z) (x : str) (a b : Z) :
  0 <= a <= k -> k <= b -> k <= len x ->
  slice (firstn (Z.to_nat k) x) a b = firstn (Z.to_nat (k - a)) (skipn (Z.to_nat a) x).
Proof.
  intros Ha Hb Hk. unfold slice.
  assert (Hl : len (firstn (Z.to_nat k) x) = k).
  { unfold len in *. rewrite length_firstn. lia. }
  rewrite Hl, !adjust_index_nonneg by lia.
  rewrite (Z.min_l a k), (Z.min_r b k) by lia.
  rewrite skipn_firstn_comm, firstn_firstn.
  f_equal. lia.
Qed.

(** ** [int(.., 16)] and [bytes.fromhex] on hexadecimal digits *)

Lemma scan_digits_hex (x : str) (acc : Z) :
  all_hex x = true ->
  scan_digits x false acc
  = Some (fold_left (fun acc c => acc * 16 + digit_value c) x acc, []).
Proof.
  revert acc. induction x as [|c x IH]; intros acc H; simpl in *; [reflexivity|].
  apply andb_true_iff in H as [Hc Hx].
  destruct (hex_char_plain c Hc) as (_ & _ & _ & _ & Hu & _).
  rewrite Hu, Hc. now apply IH.
Qed.

Lemma fold_digits_nonneg (x : str) (acc : Z) :
  all_hex x = true -> 0 <= acc ->
  0 <= fold_left (fun acc c => acc * 16 + digit_value c) x acc.
Proof.
  revert acc. induction x as [|c x IH]; intros acc H Hacc; simpl in *; [assumption|].
  apply andb_true_iff in H as [Hc Hx].
  apply IH; [assumption|]. pose proof (digit_value_hex c Hc). lia.
Qed.

(** On a non-empty string of hexadecimal digits [int(x, 16)] is the plain
    positional value: no sign, prefix, blank or underscore is involved. *)
Lemma int16_hex (x : str) :
  all_hex x = true -> x <> [] -> int16 x = Ok (be_value x).
Proof.
  intros H Hne. destruct x as [|c x]; [congruence|].
  pose proof H as H0. simpl in H0. apply andb_true_iff in H0 as [Hc Hx].
  destruct (hex_char_plain c Hc) as (Hsp & _ & Hplus & Hminus & _ & _ & _ & _).
  unfold int16. simpl lstrip. rewrite Hsp. unfold skip_sign. rewrite Hplus, Hminus.
  assert (Hpre : skip_prefix (c :: x) = c :: x).
  { destruct x as [|d x]; [reflexivity|]. simpl in Hx.
    apply andb_true_iff in Hx as [Hd _].
    destruct (hex_char_plain d Hd) as (_ & _ & _ & _ & _ & Hx1 & Hx2 & _).
    unfold skip_prefix. rewrite Hx1, Hx2, andb_false_r. reflexivity. }
  rewrite Hpre, Hc, (scan_digits_hex _ 0 H). simpl lstrip.
  unfold be_value. f_equal. lia.
Qed.

Lemma be_value_nonneg (x : str) : all_hex x = true -> 0 <= be_value x.
Proof. intro H. apply fold_digits_nonneg; [assumption | lia]. Qed.

(** What a successful [int(.., 16)] of a slice of a hexadecimal string
    tells: the slice is not empty and the value is not negative. *)
Lemma int16_slice_hex (tx : str) (a b v : Z) :
  all_hex tx = true -> int16 (slice tx a b) = Ok v ->
  slice tx a b <> [] /\ v = be_value (slice tx a b) /\ 0 <= v.
Proof.
  intros H E.
  assert (Hne : slice tx a b <> []).
  { intro E0. rewrite E0 in E. discriminate E. }
  pose proof (all_hex_slice tx a b H) as Hs.
  rewrite (int16_hex _ Hs Hne) in E. inversion E; subst v.
  repeat split; auto using be_value_nonneg.
Qed.

Lemma pair_induction {A} (P : list A -> Prop) :
  P [] -> (forall a, P [a]) -> (forall a b l, P l -> P (a :: b :: l)) ->
  forall l, P l.
Proof.
  intros H0 H1 H2.
  assert (H : forall l, P l /\ forall a, P (a :: l)).
  { induction l as [|b l [IH IH']]; split; auto. }
  intro l. apply H.
Qed.

Lemma fromhex_hex (x : str) :
  all_hex x = true ->
  fromhex x = if Nat.even (List.length x) then Ok (digit_pairs x) else Raise ValueError.
Proof.
  induction x as [|c|c d x IH] using pair_induction; intro H.
  - reflexivity.
  - simpl in H. rewrite andb_true_r in H.
    destruct (hex_char_plain c H) as (_ & Hs & _).
    simpl. now rewrite Hs, H.
  - simpl in H. apply andb_true_iff in H as [Hc H]. apply andb_true_iff in H as [Hd Hx].
    destruct (hex_char_plain c Hc) as (_ & Hs & _).
    change (fromhex (c :: d :: x)) with
      (if is_space c then fromhex (d :: x)
       else if is_hex c then
         if is_hex d then
           bind (fromhex x) (fun bs => Ok (byte_of_nibbles (digit_value c) (digit_value d) :: bs))
         else Raise ValueError
       else Raise ValueError).
    rewrite Hs, Hc, Hd, (IH Hx).
    change (Nat.even (List.length (c :: d :: x))) with (Nat.even (List.length x)).
    destruct (Nat.even (List.length x)); reflexivity.
Qed.

Lemma length_digit_pairs (x : str) :
  List.length (digit_pairs x) = Nat.div2 (List.length x).
Proof.
  induction x as [|c|c d x IH] using pair_induction; simpl; auto.
Qed.

Lemma digit_pairs_firstn (j : nat) (x : str) :
  digit_pairs (firstn (2 * j) x) = firstn j (digit_pairs x).
Proof.
  revert j. induction x as [|c|c d x IH] using pair_induction; intro j.
  - now rewrite !firstn_nil.
  - destruct j; [reflexivity|]. replace (2 * S j)%nat with (S (S (2 * j))) by lia.
    reflexivity.
  - destruct j; [reflexivity|]. replace (2 * S j)%nat with (S (S (2 * j))) by lia.
    simpl. f_equal. apply IH.
Qed.


Lemma byte_value_of_nibbles (hi lo : Z) :
  0 <= hi < 16 -> 0 <= lo < 16 -> byte_value (byte_of_nibbles hi lo) = 16 * hi + lo.
Proof.
  intros Hh Hl. unfold byte_value, byte_of_nibbles.
  destruct (Byte.of_N (Z.to_N (16 * hi + lo))) as [b|] eqn:E.
  - apply Byte.to_of_N in E. lia.
  - apply Byte.of_N_None_iff in E. lia.
Qed.

Lemma int_from_bytes_little_cons (b : byte) (bs : bytes) :
  int_from_bytes_little (b :: bs) = byte_value b + 256 * int_from_bytes_little bs.
Proof. reflexivity. Qed.

(** Within a byte the first digit is the high nibble, and the bytes of a
    digit string are read least significant first. *)
Lemma int_from_bytes_little_digit_pairs (c d : ascii) (x : str) :
  is_hex c = true -> is_hex d = true ->
  int_from_bytes_little (digit_pairs (c :: d :: x))
  = 16 * digit_value c + digit_value d + 256 * int_from_bytes_little (digit_pairs x).
Proof.
  intros Hc Hd. cbn [digit_pairs]. rewrite int_from_bytes_little_cons.
  rewrite byte_value_of_nibbles by now apply digit_value_hex. reflexivity.
Qed.


Lemma length_hex (bs : bytes) : len (hex bs) = 2 * len bs.
Proof.
  unfold len, hex. induction bs as [|b bs IH]; simpl; [reflexivity|]. lia.
Qed.

(** ** Readers: how the cursor moves over hexadecimal input *)

Lemma reads_ret {A} (P : A -> Prop) (f : Z -> A) :
  (forall o, P (f o)) -> reads P (fun _ o => Ok (f o, o)).
Proof.
  intros HP tx o x o' _ _ E. inversion E; subst. repeat split; auto. lia.
Qed.

Lemma reads_bind {A B} (P : A -> Prop) (Q : B -> Prop)
      (p : reader A) (k : A -> reader B) :
  reads P p -> (forall x, P x -> reads Q (k x)) ->
  reads Q (fun tx o => '(x, o1) <- p tx o ;; k x tx o1).
Proof.
  intros Hp Hk tx o y o' Hhex Ho E.
  destruct (p tx o) as [[x o1]|e] eqn:Ep; [|discriminate E]. cbn [bind] in E.
  destruct (Hp _ _ _ _ Hhex Ho Ep) as (HP & Hle & Hloc).
  assert (Ho1 : 0 <= o1) by lia.
  destruct (Hk x HP _ _ _ _ Hhex Ho1 E) as (HQ & Hle' & Hloc').
  repeat split; [assumption | lia |].
  intros tx' Hpre.
  rewrite (Hloc tx' (same_prefix_le _ _ _ _ Hpre Hle')). cbn [bind].
  now apply Hloc'.
Qed.

Lemma slice_length_le {A} (x : list A) (a b : Z) :
  a <= b -> len (slice x a b) <= b - a.
Proof.
  intros Hab. unfold slice, adjust_index.
  unfold len at 1. rewrite length_firstn.
  destruct (Z.ltb_spec a 0), (Z.ltb_spec b 0); lia.
Qed.

Lemma div2_le (n : nat) (m : Z) : Z.of_nat n <= 2 * m -> Z.of_nat (Nat.div2 n) <= m.
Proof.
  intro H. pose proof (Nat.div2_odd n) as E.
  destruct (Nat.odd n); simpl in E; lia.
Qed.

(** [read_bytes] returns at most [length] bytes and always moves the cursor
    by [2 * length] characters. *)
Lemma read_bytes_reads (length : Z) :
  0 <= length ->
  reads (fun bs => len bs <= length) (fun tx o => read_bytes tx o length).
Proof.
  intros Hn tx o bs o' Hhex Ho E. unfold read_bytes in E.
  destruct (fromhex (slice tx o (o + length * 2))) as [bs0|e] eqn:Ef; [|discriminate E].
  cbn [bind] in E. inversion E; subst bs0 o'; clear E.
  repeat split; [| lia |].
  - pose proof (all_hex_slice tx o (o + length * 2) Hhex) as Hs.
    rewrite (fromhex_hex _ Hs) in Ef.
    destruct (Nat.even _); [|discriminate Ef]. inversion Ef; subst bs.
    unfold len. rewrite length_digit_pairs. apply div2_le.
    pose proof (slice_length_le tx o (o + length * 2) ltac:(lia)) as Hl.
    unfold len in Hl. lia.
  - intros tx' Hpre. unfold read_bytes.
    rewrite <- (slice_same_prefix _ _ _ _ _ Hpre) by lia.
    now rewrite Ef.
Qed.

(** [read_varint] returns a non-negative value. *)
Lemma read_varint_reads : reads (fun v => 0 <= v) read_varint.
Proof.
  intros tx o v o' Hhex Ho E. unfold read_varint in E.
  destruct (int16 (slice tx o (o + 2))) as [fb|e] eqn:E1; [|discriminate E].
  cbn [bind] in E.
  destruct (int16_slice_hex _ _ _ _ Hhex E1) as (_ & _ & Hfb).
  assert (Hwide : forall w, 0 <= w ->
            (value <- int16 (slice tx (o + 2) (o + 2 + w)) ;; Ok (value, o + 2 + w)) = Ok (v, o') ->
            0 <= v /\ o <= o' /\
            forall tx', same_prefix o' tx tx' -> read_varint tx' o
              = (value <- int16 (slice tx' (o + 2) (o + 2 + w)) ;; Ok (value, o + 2 + w)) ->
              read_varint tx' o = Ok (v, o')).
  { intros w Hw E2.
    destruct (int16 (slice tx (o + 2) (o + 2 + w))) as [v0|e] eqn:E3; [|discriminate E2].
    cbn [bind] in E2. inversion E2; subst v0 o'; clear E2.
    destruct (int16_slice_hex _ _ _ _ Hhex E3) as (_ & _ & Hv).
    repeat split; [assumption | lia |].
    intros tx' Hpre ->.
    rewrite <- (slice_same_prefix _ _ _ _ _ Hpre) by lia.
    now rewrite E3. }
  assert (Hfirst : forall tx', same_prefix o' tx tx' -> o + 2 <= o' ->
            int16 (slice tx' o (o + 2)) = Ok fb).
  { intros tx' Hpre Hle.
    rewrite <- (slice_same_prefix _ _ _ _ _ Hpre) by lia. exact E1. }
  destruct (fb <? 253) eqn:C1.
  { inversion E; subst fb o'; clear E. repeat split; [assumption | lia |].
    intros tx' Hpre. unfold read_varint.
    rewrite (Hfirst tx' Hpre ltac:(lia)). cbn [bind]. now rewrite C1. }
  destruct (fb =? 253) eqn:C2; [|destruct (fb =? 254) eqn:C3].
  - destruct (Hwide 4 ltac:(lia) E) as (Hv & Hle & Hloc).
    repeat split; [assumption | lia |].
    intros tx' Hpre. apply Hloc; [assumption|].
    unfold read_varint.
    assert (o + 2 <= o') by
      (destruct (int16 (slice tx (o + 2) (o + 2 + 4))); cbn [bind] in E;
       [inversion E; lia | discriminate E]).
    rewrite (Hfirst tx' Hpre ltac:(lia)). cbn [bind]. now rewrite C1, C2.
  - destruct (Hwide 8 ltac:(lia) E) as (Hv & Hle & Hloc).
    repeat split; [assumption | lia |].
    intros tx' Hpre. apply Hloc; [assumption|].
    unfold read_varint.
    assert (o + 2 <= o') by
      (destruct (int16 (slice tx (o + 2) (o + 2 + 8))); cbn [bind] in E;
       [inversion E; lia | discriminate E]).
    rewrite (Hfirst tx' Hpre ltac:(lia)). cbn [bind]. now rewrite C1, C2, C3.
  - destruct (Hwide 16 ltac:(lia) E) as (Hv & Hle & Hloc).
    repeat split; [assumption | lia |].
    intros tx' Hpre. apply Hloc; [assumption|].
    unfold read_varint.
    assert (o + 2 <= o') by
      (destruct (int16 (slice tx (o + 2) (o + 2 + 16))); cbn [bind] in E;
       [inversion E; lia | discriminate E]).
    rewrite (Hfirst tx' Hpre ltac:(lia)). cbn [bind]. now rewrite C1, C2, C3.
Qed.

Lemma parse_input_reads : reads (fun _ => True) parse_input.
Proof.
  unfold parse_input.
  eapply reads_bind; [apply (read_bytes_reads 32); lia | intros txid_bytes _].
  eapply reads_bind; [apply (read_bytes_reads 4); lia | intros vout_bytes _].
  eapply reads_bind; [apply read_varint_reads | intros script_len Hlen].
  eapply reads_bind; [apply (read_bytes_reads script_len); exact Hlen | intros script _].
  eapply reads_bind; [apply (read_bytes_reads 4); lia | intros sequence_bytes _].
  apply (reads_ret (fun _ => True)). auto.
Qed.

Lemma for_range_reads {A} (P : A -> Prop) (body : reader A) (n : nat) (acc : list A) :
  reads P body -> reads (fun _ => True) (fun tx o => for_range body tx n o acc).
Proof.
  intro Hb. revert acc. induction n as [|n IH]; intro acc; cbn [for_range].
  - apply (reads_ret (fun _ => True) (fun _ => acc)). auto.
  - eapply reads_bind; [apply Hb | intros a _]. apply IH.
Qed.

Lemma parse_inputs_reads (n : nat) (acc : list tx_input) :
  reads (fun _ => True) (fun tx o => parse_inputs tx n o acc).
Proof. apply (for_range_reads _ _ _ _ parse_input_reads). Qed.

Lemma parse_output_reads : reads (fun _ => True) parse_output.
Proof.
  unfold parse_output.
  eapply reads_bind; [apply (read_bytes_reads 8); lia | intros value_bytes _].
  eapply reads_bind; [apply read_varint_reads | intros script_len Hlen].
  eapply reads_bind; [apply (read_bytes_reads script_len); exact Hlen | intros script _].
  apply (reads_ret (fun _ => True)). auto.
Qed.

Lemma parse_outputs_reads (n : nat) (acc : list tx_output) :
  reads (fun _ => True) (fun tx o => parse_outputs tx n o acc).
Proof. apply (for_range_reads _ _ _ _ parse_output_reads). Qed.

Lemma parse_witness_item_reads : reads (fun _ => True) parse_witness_item.
Proof.
  unfold parse_witness_item.
  eapply reads_bind; [apply read_varint_reads | intros item_len Hlen].
  eapply reads_bind; [apply (read_bytes_reads item_len); exact Hlen | intros item _].
  apply (reads_ret (fun _ => True)). auto.
Qed.

Lemma parse_witness_reads : reads (fun _ => True) parse_witness.
Proof.
  unfold parse_witness.
  eapply reads_bind; [apply read_varint_reads | intros witness_count _].
  apply (for_range_reads _ _ _ _ parse_witness_item_reads).
Qed.

Lemma parse_witnesses_reads (n : nat) (acc : list (list str)) :
  reads (fun _ => True) (fun tx o => parse_witnesses tx n o acc).
Proof. apply (for_range_reads _ _ _ _ parse_witness_reads). Qed.

(** A loop appends one result per iteration, in the order of the reads. *)
Lemma for_range_in_order {A} (body : reader A) (tx : str) (n : nat) (o : Z)
      (acc l : list A) (o' : Z) :
  for_range body tx n o acc = Ok (l, o') ->
  exists l', l = acc ++ l' /\ List.length l' = n /\ in_order body tx o l' o'.
Proof.
  revert o acc. induction n as [|n IH]; intros o acc E; cbn [for_range] in E.
  - inversion E; subst. exists []. rewrite app_nil_r. repeat split. constructor.
  - destruct (body tx o) as [[a o1]|e] eqn:Eb; [|discriminate E]. cbn [bind] in E.
    destruct (IH _ _ E) as (l' & -> & Hlen & Hord).
    exists (a :: l'). rewrite <- app_assoc. repeat split.
    + simpl. now rewrite Hlen.
    + econstructor; eassumption.
Qed.

Lemma in_order_Forall {A} (body : reader A) (tx : str) (P : A -> Prop)
      (o : Z) (l : list A) (o' : Z) :
  in_order body tx o l o' ->
  (forall o a o1, body tx o = Ok (a, o1) -> P a) -> Forall P l.
Proof.
  intros H HP. induction H; constructor; eauto.
Qed.


(** ** Stages of [parse_transaction] *)

Lemma read_bytes_offset (tx : str) (o n : Z) (bs : bytes) (o' : Z) :
  read_bytes tx o n = Ok (bs, o') ->
  fromhex (slice tx o (o + n * 2)) = Ok bs /\ o' = o + n * 2.
Proof.
  unfold read_bytes. destruct (fromhex _) as [bs0|e]; cbn [bind]; intro E;
    [inversion E; auto | discriminate E].
Qed.

Lemma parse_transaction_cursor_decoded (tx : str) (t : transaction) (o : Z) :
  parse_transaction_cursor tx = Ok (t, o) <-> decoded tx t o.
Proof.
  split.
  - unfold parse_transaction_cursor. intro H.
    bind_inv H. destruct (read_bytes_offset _ _ _ _ _ E) as [_ ->]. simpl in E.
    do 7 bind_inv H.
    destruct (read_bytes_offset _ _ _ _ _ E6) as [_ ->].
    replace (z5 + 4 * 2) with (z5 + 8) in * by lia.
    inversion H; subst t o. econstructor; eassumption.
  - intros [vb sw o1 ic o2 ins o3 oc o4 outs o5 wits o6 lb H1 H2 H3 H4 H5 H6 H7 H8].
    unfold parse_transaction_cursor.
    rewrite H1; cbn [bind]. rewrite H2; cbn [bind]. rewrite H3; cbn [bind].
    rewrite H4; cbn [bind]. rewrite H5; cbn [bind]. rewrite H6; cbn [bind].
    rewrite H7; cbn [bind]. rewrite H8; cbn [bind]. reflexivity.
Qed.

Lemma parse_transaction_decoded (tx : str) (t : transaction) :
  parse_transaction tx = Ok t <-> exists o, decoded tx t o.
Proof.
  unfold parse_transaction. split.
  - intro H. destruct (parse_transaction_cursor tx) as [[t0 o]|e] eqn:E; [|discriminate H].
    cbn [bind] in H. inversion H; subst t0. exists o.
    now apply parse_transaction_cursor_decoded.
  - intros [o H]. apply parse_transaction_cursor_decoded in H. now rewrite H.
Qed.


(** ** SegWit detection *)

Lemma check_segwit_spec (tx : str) (o marker flag : Z) :
  int16 (slice tx o (o + 2)) = Ok marker ->
  int16 (slice tx (o + 2) (o + 4)) = Ok flag ->
  check_segwit tx o
  = Ok ((marker =? 0) && negb (flag =? 0),
        if (marker =? 0) && negb (flag =? 0) then o + 4 else o).
Proof.
  intros Hm Hf. unfold check_segwit. rewrite Hm, Hf. cbn [bind].
  destruct ((marker =? 0) && negb (flag =? 0)); reflexivity.
Qed.

(** The number of inputs is the count read right after the SegWit check. *)
Lemma decoded_input_count (tx : str) (t : transaction) (o' : Z) :
  decoded tx t o' ->
  exists o1 ic o2 o3,
    check_segwit tx 8 = Ok (segwit t, o1) /\
    read_varint tx o1 = Ok (ic, o2) /\
    in_order parse_input tx o2 (inputs t) o3 /\
    List.length (inputs t) = range_len ic.
Proof.
  intros [vb sw o1 ic o2 ins o3 oc o4 outs o5 wits o6 lb H1 H2 H3 H4 H5 H6 H7 H8].
  cbn [segwit inputs].
  destruct (for_range_in_order _ _ _ _ _ _ _ H4) as (l' & -> & Hlen & Hord).
  exists o1, ic, o2, o3. auto.
Qed.

(** The other branch: a marker byte that is not 0 leaves segwit false and
    is read again as the input count. *)
Lemma legacy_transaction_decodes :
  check_segwit legacy_tx_hex 8 = Ok (false, 8) /\
  read_varint legacy_tx_hex 8 = Ok (1, 10) /\
  parse_transaction_cursor legacy_tx_hex
  = Ok ({| version := 1; segwit := false;
           inputs := [ {| txid := lit "1f1e1d1c1b1a191817161514131211100f0e0d0c0b0a09080706050403020100";
                          vout := 0; scriptSig := []; sequence := 0xffffffff |} ];
           outputs := [ {| value := div_1e8 1000; scriptPubKey := [] |} ];
           witnesses := [];
           locktime := 0 |}, len legacy_tx_hex).
Proof. vm_compute. repeat split; reflexivity. Qed.

(** The zero-input legacy encoding is taken as SegWit: its output count
    plays the flag, the first byte of the output value is read as the input
    count, and the decode runs off the end of the string. *)
Lemma legacy_zero_input_taken_as_segwit :
  check_segwit legacy_zero_input_hex 8 = Ok (true, 12) /\
  read_varint legacy_zero_input_hex 12 = Ok (232, 14) /\
  parse_transaction legacy_zero_input_hex = Raise ValueError.
Proof. vm_compute. repeat split; reflexivity. Qed.

(** ** Inputs and witnesses *)

(** C5: a successful decode returns as many inputs as the input count read,
    in the order they were read, and the witness list is empty without
    segwit and has one stack per input, read in input order, with segwit. *)
Theorem inputs_and_witnesses_aligned (tx : str) (t : transaction) :
  parse_transaction tx = Ok t ->
  exists o1 count o2 o3,
    check_segwit tx 8 = Ok (segwit t, o1) /\
    read_varint tx o1 = Ok (count, o2) /\
    in_order parse_input tx o2 (inputs t) o3 /\
    List.length (inputs t) = range_len count /\
    List.length (witnesses t) = (if segwit t then List.length (inputs t) else 0%nat) /\
    (segwit t = true -> exists o5 o6, in_order parse_witness tx o5 (witnesses t) o6).
Proof.
  intro Ht. apply parse_transaction_decoded in Ht as [o' Hd].
  destruct Hd as [vb sw o1 ic o2 ins o3 oc o4 outs o5 wits o6 lb H1 H2 H3 H4 H5 H6 H7 H8].
  cbn [segwit inputs witnesses].
  destruct (for_range_in_order _ _ _ _ _ _ _ H4) as (l' & -> & Hlen & Hord).
  exists o1, ic, o2, o3. cbn [app]. repeat split; try assumption.
  - destruct sw.
    + destruct (for_range_in_order _ _ _ _ _ _ _ H7) as (w' & -> & Hlenw & _).
      cbn [app]. congruence.
    + now inversion H7.
  - intros ->.
    destruct (for_range_in_order _ _ _ _ _ _ _ H7) as (w' & -> & _ & Hordw).
    exists o5, o6. exact Hordw.
Qed.

Lemma inputs_and_witnesses_aligned_witness :
  parse_transaction sample_tx_hex = Ok sample_tx /\
  exists o1 count o2 o3,
    check_segwit sample_tx_hex 8 = Ok (segwit sample_tx, o1) /\
    read_varint sample_tx_hex o1 = Ok (count, o2) /\
    in_order parse_input sample_tx_hex o2 (inputs sample_tx) o3 /\
    List.length (inputs sample_tx) = range_len count /\
    List.length (witnesses sample_tx)
    = (if segwit sample_tx then List.length (inputs sample_tx) else 0%nat) /\
    (segwit sample_tx = true ->
     exists o5 o6, in_order parse_witness sample_tx_hex o5 (witnesses sample_tx) o6).
Proof.
  split; [vm_compute; reflexivity|].
  apply (inputs_and_witnesses_aligned sample_tx_hex sample_tx). vm_compute. reflexivity.
Defined.

(** ** Fixed-width fields *)



(** [bytes.fromhex] returns at most one byte per two characters. *)
Lemma fromhex_length (x : str) (bs : bytes) : fromhex x = Ok bs -> 2 * len bs <= len x.
Proof.
  remember (List.length x) as n eqn:Hn.
  assert (Hle : (List.length x <= n)%nat) by lia. clear Hn.
  revert x bs Hle. induction n as [|n IH]; intros x bs Hle E.
  - destruct x; [|simpl in Hle; lia]. inversion E. unfold len; simpl; lia.
  - destruct x as [|c x]; [inversion E; unfold len; simpl; lia|].
    cbn [List.length] in Hle. cbn [fromhex] in E.
    destruct (is_space c).
    + specialize (IH x bs ltac:(lia) E). unfold len in *. cbn [List.length]. lia.
    + destruct (is_hex c); [|discriminate E].
      destruct x as [|d x]; [discriminate E|].
      destruct (is_hex d); [|discriminate E].
      destruct (fromhex x) as [bs0|] eqn:E0; [|discriminate E].
      cbn [bind] in E. inversion E; subst bs.
      cbn [List.length] in Hle.
      specialize (IH x bs0 ltac:(lia) E0).
      unfold len in *. cbn [List.length]. lia.
Qed.

(** ** Transaction ids *)

Lemma read_varint_in_bounds (tx : str) (o v o' : Z) :
  0 <= o -> read_varint tx o = Ok (v, o') -> o < len tx.
Proof.
  intros Ho E. destruct (Z.lt_ge_cases o (len tx)) as [|Hge]; [assumption|].
  unfold read_varint in E. rewrite (slice_past_end tx o (o + 2) Ho Hge) in E.
  discriminate E.
Qed.


Lemma parse_input_txid (tx : str) (o : Z) (i : tx_input) (o' : Z) :
  all_hex tx = true -> 0 <= o -> parse_input tx o = Ok (i, o') ->
  exists wire,
    o + 64 <= len tx /\
    read_bytes tx o 32 = Ok (wire, o + 64) /\
    wire = digit_pairs (slice tx o (o + 64)) /\
    List.length wire = 32%nat /\
    txid i = hex (reversed wire) /\
    List.length (txid i) = 64%nat.
Proof.
  intros Hhex Ho. unfold parse_input. intro H. do 5 bind_inv H.
  inversion H; subst i o'; clear H. cbn [txid].
  destruct (read_bytes_offset _ _ _ _ _ E) as [Ef ->].
  destruct (read_bytes_offset _ _ _ _ _ E0) as [_ ->].
  assert (Hin : o + 32 * 2 + 4 * 2 < len tx)
    by (eapply read_varint_in_bounds; [|exact E1]; lia).
  replace (o + 32 * 2) with (o + 64) in * by lia.
  pose proof (slice_length tx o (o + 64) ltac:(lia) ltac:(lia)) as Hl.
  rewrite (fromhex_hex _ (all_hex_slice tx o (o + 64) Hhex)) in Ef.
  assert (Hn : List.length (slice tx o (o + 64)) = 64%nat) by (unfold len in Hl; lia).
  rewrite Hn in Ef. cbn [Nat.even] in Ef. inversion Ef as [Hw].
  assert (Hlw : List.length (digit_pairs (slice tx o (o + 64))) = 32%nat)
    by (rewrite length_digit_pairs, Hn; reflexivity).
  exists (digit_pairs (slice tx o (o + 64))).
  repeat split; try assumption; try lia.
  pose proof (length_hex (reversed (digit_pairs (slice tx o (o + 64))))) as Hh.
  unfold len, reversed in Hh. rewrite length_rev, Hlw in Hh.
  unfold reversed. lia.
Qed.

(** Whatever the input string, a txid is the hex encoding of the bytes read
    for it, reversed, two characters per byte. *)
Lemma txid_reverses_bytes_read (tx : str) (o : Z) (i : tx_input) (o' : Z) :
  parse_input tx o = Ok (i, o') ->
  exists wire,
    read_bytes tx o 32 = Ok (wire, o + 64) /\
    txid i = hex (reversed wire) /\ len (txid i) = 2 * len wire.
Proof.
  unfold parse_input. intro H. do 5 bind_inv H.
  inversion H; subst i o'; clear H. cbn [txid].
  destruct (read_bytes_offset _ _ _ _ _ E) as [_ ->].
  eexists. split; [reflexivity|]. split; [reflexivity|].
  rewrite length_hex. unfold reversed, len. now rewrite length_rev.
Qed.

(** ** The cursor through a whole decode *)

Lemma decoded_stages (tx : str) (t : transaction) (o : Z) :
  decoded tx t o <->
  exists c locktime_bytes,
    stages_hold tx t c /\
    read_bytes tx (after_witnesses c) 4 = Ok (locktime_bytes, o) /\
    o = after_witnesses c + 8 /\
    locktime t = int_from_bytes_little locktime_bytes.
Proof.
  split.
  - intros [vb sw o1 ic o2 ins o3 oc o4 outs o5 wits o6 lb H1 H2 H3 H4 H5 H6 H7 H8].
    exists {| after_segwit := o1; input_count := ic; after_input_count := o2;
              after_inputs := o3; output_count := oc; after_output_count := o4;
              after_outputs := o5; after_witnesses := o6 |}, lb.
    unfold stages_hold.
    cbn [after_segwit input_count after_input_count after_inputs output_count
         after_output_count after_outputs after_witnesses
         version segwit inputs outputs witnesses locktime].
    repeat split; try assumption. exists vb. auto.
  - intros (c & lb & Hs & Hl & -> & Ht).
    destruct Hs as ((vb & H1 & Hv) & H2 & H3 & H4 & H5 & H6 & H7).
    destruct t as [v sw ins outs wits lt]. cbn in *. subst v lt.
    econstructor; eassumption.
Qed.

Lemma check_segwit_cursor (tx : str) (o : Z) (sw : bool) (o1 : Z) :
  check_segwit tx o = Ok (sw, o1) -> o1 = (if sw then o + 4 else o).
Proof.
  unfold check_segwit. intro H.
  do 2 (destruct (int16 _); [cbn [bind] in H | discriminate H]).
  destruct (_ && _); now inversion H.
Qed.

Lemma check_segwit_same_prefix (m : Z) (tx tx' : str) (o : Z) :
  same_prefix m tx tx' -> 0 <= o -> o + 4 <= m ->
  check_segwit tx' o = check_segwit tx o.
Proof.
  intros Hpre Ho Hm. unfold check_segwit.
  rewrite <- (slice_same_prefix _ _ _ o (o + 2) Hpre) by lia.
  rewrite <- (slice_same_prefix _ _ _ (o + 2) (o + 4) Hpre) by lia.
  reflexivity.
Qed.

(** A varint takes 1, 3, 5 or 9 bytes. *)
Lemma read_varint_advance (tx : str) (o v o' : Z) :
  read_varint tx o = Ok (v, o') ->
  o' = o + 2 \/ o' = o + 6 \/ o' = o + 10 \/ o' = o + 18.
Proof.
  unfold read_varint. intro H.
  destruct (int16 (slice tx o (o + 2))) as [fb|]; [cbn [bind] in H | discriminate H].
  destruct (fb <? 253); [inversion H; lia|].
  destruct (fb =? 253); [|destruct (fb =? 254)];
    (destruct (int16 _); [cbn [bind] in H; inversion H; lia | discriminate H]).
Qed.

(** On hexadecimal input the cursor only moves forward from stage to
    stage. *)
Lemma stages_cursors (tx : str) (t : transaction) (c : stages) :
  all_hex tx = true -> stages_hold tx t c ->
  8 <= after_segwit c /\
  after_segwit c + 2 <= after_input_count c /\
  after_input_count c <= after_inputs c /\
  after_inputs c + 2 <= after_output_count c /\
  after_output_count c <= after_outputs c /\
  after_outputs c <= after_witnesses c.
Proof.
  intros Hhex (_ & H2 & H3 & H4 & H5 & H6 & H7).
  pose proof (check_segwit_cursor _ _ _ _ H2) as C1.
  assert (G1 : 8 <= after_segwit c) by (destruct (segwit t); lia).
  pose proof (read_varint_advance _ _ _ _ H3) as C2.
  assert (G2 : 0 <= after_input_count c) by lia.
  destruct (parse_inputs_reads _ _ _ _ _ _ Hhex G2 H4) as (_ & C3 & _).
  pose proof (read_varint_advance _ _ _ _ H5) as C4.
  assert (G4 : 0 <= after_output_count c) by lia.
  destruct (parse_outputs_reads _ _ _ _ _ _ Hhex G4 H6) as (_ & C5 & _).
  assert (G5 : 0 <= after_outputs c) by lia.
  assert (C6 : after_outputs c <= after_witnesses c).
  { destruct (segwit t).
    - now destruct (parse_witnesses_reads _ _ _ _ _ _ Hhex G5 H7) as (_ & C6 & _).
    - inversion H7. lia. }
  lia.
Qed.

(** The stages before the locktime depend only on the characters before
    the cursor they end at. *)
Lemma stages_same_prefix (tx tx' : str) (t : transaction) (c : stages) :
  all_hex tx = true -> stages_hold tx t c ->
  same_prefix (after_witnesses c) tx tx' ->
  stages_hold tx' t c.
Proof.
  intros Hhex Hs Hpre.
  pose proof (stages_cursors _ _ _ Hhex Hs) as (G1 & G2 & G3 & G4 & G5 & G6).
  destruct Hs as ((vb & H1 & Hv) & H2 & H3 & H4 & H5 & H6 & H7).
  assert (L : forall m, m <= after_witnesses c -> same_prefix m tx tx')
    by (intros m Hm; exact (same_prefix_le _ _ _ _ Hpre Hm)).
  unfold stages_hold. repeat split.
  - exists vb. split; [|exact Hv].
    destruct (read_bytes_reads 4 ltac:(lia) _ _ _ _ Hhex (Z.le_refl 0) H1) as (_ & _ & Hl).
    apply Hl, L. lia.
  - rewrite (check_segwit_same_prefix _ _ _ 8 (L 12 ltac:(lia))) by lia. exact H2.
  - assert (G : 0 <= after_segwit c) by lia.
    destruct (read_varint_reads _ _ _ _ Hhex G H3) as (_ & _ & Hl). apply Hl, L. lia.
  - assert (G : 0 <= after_input_count c) by lia.
    destruct (parse_inputs_reads _ _ _ _ _ _ Hhex G H4) as (_ & _ & Hl). apply Hl, L. lia.
  - assert (G : 0 <= after_inputs c) by lia.
    destruct (read_varint_reads _ _ _ _ Hhex G H5) as (_ & _ & Hl). apply Hl, L. lia.
  - assert (G : 0 <= after_output_count c) by lia.
    destruct (parse_outputs_reads _ _ _ _ _ _ Hhex G H6) as (_ & _ & Hl). apply Hl, L. lia.
  - destruct (segwit t); [|exact H7].
    assert (G : 0 <= after_outputs c) by lia.
    destruct (parse_witnesses_reads _ _ _ _ _ _ Hhex G H7) as (_ & _ & Hl). apply Hl, L. lia.
Qed.

(** C8, as the code has it: on hexadecimal input the cursor never moves
    backwards from one read to the next, [read_bytes] moves it by exactly the
    [2 * n] characters requested and [read_varint] by 1, 3, 5 or 9 bytes,
    whatever is left of the input. *)
Theorem cursor_moves_forward_on_hex (tx : str) (t : transaction) (o_end : Z) :
  all_hex tx = true ->
  parse_transaction_cursor tx = Ok (t, o_end) ->
  (exists c,
     stages_hold tx t c /\
     0 <= 8 /\ 8 <= after_segwit c /\
     after_segwit c <= after_input_count c /\
     after_input_count c <= after_inputs c /\
     after_inputs c <= after_output_count c /\
     after_output_count c <= after_outputs c /\
     after_outputs c <= after_witnesses c /\
     after_witnesses c <= o_end /\ o_end = after_witnesses c + 8) /\
  (forall o n bs o', read_bytes tx o n = Ok (bs, o') -> o' = o + 2 * n) /\
  (forall o v o', 0 <= o -> read_varint tx o = Ok (v, o') ->
     0 <= v /\ (o' = o + 2 \/ o' = o + 6 \/ o' = o + 10 \/ o' = o + 18)) /\
  (forall o i o', 0 <= o -> parse_input tx o = Ok (i, o') -> o <= o') /\
  (forall o out o', 0 <= o -> parse_output tx o = Ok (out, o') -> o <= o') /\
  (forall o w o', 0 <= o -> parse_witness tx o = Ok (w, o') -> o <= o').
Proof.
  intros Hhex Hp. apply parse_transaction_cursor_decoded, decoded_stages in Hp.
  destruct Hp as (c & lb & Hs & Hl & -> & _).
  pose proof (stages_cursors _ _ _ Hhex Hs) as (G1 & G2 & G3 & G4 & G5 & G6).
  split; [exists c; split; [exact Hs | repeat split; lia]|].
  split.
  { intros o n bs o' E. destruct (read_bytes_offset _ _ _ _ _ E) as [_ ->]. lia. }
  split.
  { intros o v o' Ho E. split; [|exact (read_varint_advance _ _ _ _ E)].
    now destruct (read_varint_reads _ _ _ _ Hhex Ho E). }
  split; [|split].
  - intros o i o' Ho E. now destruct (parse_input_reads _ _ _ _ Hhex Ho E) as (_ & ? & _).
  - intros o i o' Ho E. now destruct (parse_output_reads _ _ _ _ Hhex Ho E) as (_ & ? & _).
  - intros o i o' Ho E. now destruct (parse_witness_reads _ _ _ _ Hhex Ho E) as (_ & ? & _).
Qed.

Lemma cursor_moves_forward_on_hex_witness :
  all_hex sample_tx_hex = true /\
  parse_transaction_cursor sample_tx_hex = Ok (sample_tx, 444) /\
  (exists c,
     stages_hold sample_tx_hex sample_tx c /\
     0 <= 8 /\ 8 <= after_segwit c /\
     after_segwit c <= after_input_count c /\
     after_input_count c <= after_inputs c /\
     after_inputs c <= after_output_count c /\
     after_output_count c <= after_outputs c /\
     after_outputs c <= after_witnesses c /\
     after_witnesses c <= 444 /\ 444 = after_witnesses c + 8).
Proof.
  split; [reflexivity|]. split; [vm_compute; reflexivity|].
  apply (cursor_moves_forward_on_hex sample_tx_hex sample_tx 444);
    [reflexivity | vm_compute; reflexivity].
Defined.

(** C8 fails as stated: a read of 4 bytes on a 1-byte input returns 1 byte
    and leaves the cursor at 8, past the length 2; and decoding the sample
    cut one byte short ends with the cursor at 444 on 442 characters. *)
Lemma cursor_passes_the_end_of_input :
  read_bytes (lit "02") 0 4 = Ok ([x02], 8) /\
  len (lit "02") = 2 /\
  parse_transaction_cursor (drop_last_bytes 1 sample_tx_hex) = Ok (sample_tx, 444) /\
  len (drop_last_bytes 1 sample_tx_hex) = 442.
Proof. vm_compute. repeat split; reflexivity. Qed.

(** Outside hexadecimal input the cursor can even move backwards: a signed
    length is accepted. *)
Lemma cursor_moves_back_on_signed_length :
  read_varint (lit "00-1") 2 = Ok (-1, 4) /\
  read_bytes (lit "00-1") 4 (-1) = Ok ([], 2).
Proof. vm_compute. split; reflexivity. Qed.

(** ** Truncated and malformed input *)

Lemma digit_pairs_reads_locktime (tx : str) (o : Z) (j : Z) :
  all_hex tx = true -> 0 <= o -> o + 8 <= len tx -> 0 <= j <= 4 ->
  fromhex (firstn (Z.to_nat (2 * j)) (skipn (Z.to_nat o) tx))
  = Ok (firstn (Z.to_nat j) (digit_pairs (slice tx o (o + 8)))).
Proof.
  intros Hhex Ho Hl Hj.
  set (x := firstn (Z.to_nat (2 * j)) (skipn (Z.to_nat o) tx)).
  assert (Hx : all_hex x = true) by (apply all_hex_firstn, all_hex_skipn, Hhex).
  assert (Hlen : List.length x = (2 * Z.to_nat j)%nat).
  { unfold x, len in *. rewrite length_firstn, length_skipn. lia. }
  rewrite (fromhex_hex _ Hx), Hlen.
  replace (Nat.even (2 * Z.to_nat j)) with true
    by (symmetry; apply Nat.even_spec; now exists (Z.to_nat j)).
  f_equal. rewrite <- digit_pairs_firstn.
  rewrite slice_in_range by lia. unfold x.
  rewrite firstn_firstn. f_equal. f_equal. lia.
Qed.

(** What does stop a decode on a shortened input: reading a varint at or
    past the end. *)
Lemma read_varint_past_end (tx : str) (o : Z) :
  0 <= o -> len tx <= o -> read_varint tx o = Raise ValueError.
Proof.
  intros Ho Hl. unfold read_varint. now rewrite (slice_past_end tx o (o + 2) Ho Hl).
Qed.

(** C2, as the code has it: a read that runs past the end of the input does
    not fail, it returns the bytes that are left and moves the cursor by the
    full width.  So when a hexadecimal transaction that decodes up to its
    last character loses its last 1 to 4 bytes, the decode still returns a
    record: the same one, with the locktime read from the bytes left.  What
    raises (a ValueError) is a varint read at or past the end. *)
Theorem truncation_in_locktime_still_decodes (tx : str) (t : transaction) (k : Z) :
  all_hex tx = true ->
  parse_transaction_cursor tx = Ok (t, len tx) ->
  1 <= k <= 4 ->
  (exists locktime_bytes,
     read_bytes tx (len tx - 8) 4 = Ok (locktime_bytes, len tx) /\
     read_bytes (drop_last_bytes k tx) (len tx - 8) 4
     = Ok (firstn (Z.to_nat (4 - k)) locktime_bytes, len tx) /\
     parse_transaction (drop_last_bytes k tx)
     = Ok (with_locktime t
             (int_from_bytes_little (firstn (Z.to_nat (4 - k)) locktime_bytes)))) /\
  (forall o, len (drop_last_bytes k tx) <= o ->
     read_varint (drop_last_bytes k tx) o = Raise ValueError).
Proof.
  intros Hhex Hp Hk. split.
  2:{ intros o Ho. apply read_varint_past_end; [|exact Ho].
      pose proof (len_nonneg (drop_last_bytes k tx)). lia. }
  apply parse_transaction_cursor_decoded, decoded_stages in Hp.
  destruct Hp as (c & lb & Hs & Hl & Hend & Hlt).
  pose proof (stages_cursors _ _ _ Hhex Hs) as (G1 & G2 & G3 & G4 & G5 & G6).
  set (o6 := after_witnesses c) in *.
  assert (Ho6 : o6 = len tx - 8) by lia.
  assert (G : 0 <= o6) by lia.
  set (tx' := drop_last_bytes k tx).
  assert (Hpre : same_prefix (len tx - 2 * k) tx tx').
  { apply same_prefix_firstn. lia. }
  assert (Hs' : stages_hold tx' t c).
  { apply (stages_same_prefix tx tx' t c Hhex Hs).
    apply (same_prefix_le _ _ _ _ Hpre). fold o6. lia. }
  destruct (read_bytes_offset _ _ _ _ _ Hl) as [Ef _].
  assert (Hlb : lb = digit_pairs (slice tx o6 (o6 + 8))).
  { pose proof (digit_pairs_reads_locktime tx o6 4 Hhex G ltac:(lia) ltac:(lia)) as E4.
    change (o6 + 4 * 2) with (o6 + 8) in Ef.
    rewrite slice_in_range in Ef by lia.
    replace (o6 + 8 - o6) with (2 * 4) in Ef by lia.
    rewrite E4 in Ef.
    assert (E5 : firstn (Z.to_nat 4) (digit_pairs (slice tx o6 (o6 + 8))) = lb)
      by congruence.
    rewrite <- E5. rewrite firstn_all2; [reflexivity|].
    rewrite length_digit_pairs.
    pose proof (slice_length tx o6 (o6 + 8) ltac:(lia) ltac:(lia)) as Hsl.
    unfold len in Hsl.
    replace (List.length (slice tx o6 (o6 + 8))) with 8%nat by lia. simpl. lia. }
  assert (Hl' : read_bytes tx' o6 4 = Ok (firstn (Z.to_nat (4 - k)) lb, len tx)).
  { unfold read_bytes. change (o6 + 4 * 2) with (o6 + 8).
    unfold tx', drop_last_bytes.
    rewrite slice_firstn_over by lia.
    replace (len tx - 2 * k - o6) with (2 * (4 - k)) by lia.
    rewrite (digit_pairs_reads_locktime tx o6 (4 - k) Hhex G) by lia.
    cbn [bind]. rewrite Hlb. f_equal. f_equal. lia. }
  exists lb. rewrite <- Ho6.
  split; [rewrite Hl; f_equal; f_equal; lia|].
  split; [exact Hl'|].
  apply parse_transaction_decoded. exists (len tx).
  apply decoded_stages. exists c, (firstn (Z.to_nat (4 - k)) lb).
  split; [exact Hs'|]. fold o6. split; [exact Hl'|]. split; [lia | reflexivity].
Qed.

Lemma truncation_in_locktime_still_decodes_witness :
  all_hex sample_tx_hex = true /\
  parse_transaction_cursor sample_tx_hex = Ok (sample_tx, len sample_tx_hex) /\
  1 <= 1 <= 4 /\
  exists locktime_bytes,
    read_bytes sample_tx_hex (len sample_tx_hex - 8) 4
    = Ok (locktime_bytes, len sample_tx_hex) /\
    read_bytes (drop_last_bytes 1 sample_tx_hex) (len sample_tx_hex - 8) 4
    = Ok (firstn (Z.to_nat (4 - 1)) locktime_bytes, len sample_tx_hex) /\
    parse_transaction (drop_last_bytes 1 sample_tx_hex)
    = Ok (with_locktime sample_tx
            (int_from_bytes_little (firstn (Z.to_nat (4 - 1)) locktime_bytes))).
Proof.
  split; [reflexivity|]. split; [vm_compute; reflexivity|]. split; [lia|].
  apply (truncation_in_locktime_still_decodes sample_tx_hex sample_tx 1);
    [reflexivity | vm_compute; reflexivity | lia].
Defined.

(** C2 fails as stated: the sample transaction cut one byte before its end
    decodes, to the very same record, and a read of 4 bytes with 2 bytes
    left returns them. *)
Lemma truncated_sample_returns_a_record :
  parse_transaction sample_tx_hex = Ok sample_tx /\
  parse_transaction (drop_last_bytes 1 sample_tx_hex) = Ok sample_tx /\
  (forall e, parse_transaction (drop_last_bytes 1 sample_tx_hex) <> Raise e) /\
  read_bytes (lit "0200") 0 4 = Ok ([x02; x00], 8).
Proof.
  assert (E : parse_transaction (drop_last_bytes 1 sample_tx_hex) = Ok sample_tx)
    by (vm_compute; reflexivity).
  repeat split; try (vm_compute; reflexivity); try exact E.
  intros e He. rewrite E in He. discriminate He.
Qed.

(** [bytes.fromhex] accepts hexadecimal digits and blanks only. *)
Lemma fromhex_accepts (x : str) (bs : bytes) :
  fromhex x = Ok bs -> forallb (fun c => is_hex c || is_space c) x = true.
Proof.
  remember (List.length x) as n eqn:Hn.
  assert (Hle : (List.length x <= n)%nat) by lia. clear Hn.
  revert x bs Hle. induction n as [|n IH]; intros x bs Hle E.
  - destruct x; [reflexivity | simpl in Hle; lia].
  - destruct x as [|c x]; [reflexivity|].
    cbn [List.length] in Hle. cbn [fromhex] in E. cbn [forallb].
    destruct (is_space c) eqn:Hs.
    + rewrite orb_true_r. apply (IH x bs); [lia | exact E].
    + destruct (is_hex c); [|discriminate E].
      destruct x as [|d x]; [discriminate E|].
      destruct (is_hex d) eqn:Hd; [|discriminate E].
      destruct (fromhex x) as [bs0|] eqn:E0; [|discriminate E].
      cbn [List.length] in Hle. cbn [forallb orb andb]. rewrite Hd. cbn [orb andb].
      apply (IH x bs0); [lia | exact E0].
Qed.

(** A character among the first eight that is neither a hexadecimal digit
    nor a blank stops the decode at the version read. *)
Lemma invalid_version_character_raises (tx : str) (c : ascii) :
  In c (slice tx 0 8) -> is_hex c = false -> is_space c = false ->
  parse_transaction tx = Raise ValueError.
Proof.
  intros Hin Hh Hs. unfold parse_transaction, parse_transaction_cursor, read_bytes.
  change (0 + 4 * 2) with 8.
  destruct (fromhex (slice tx 0 8)) as [bs|[]] eqn:E; [|reflexivity].
  apply fromhex_accepts in E.
  rewrite forallb_forall in E. specialize (E c Hin).
  rewrite Hh, Hs in E. discriminate E.
Qed.

(** C9, as the code has it: nothing is validated ahead of the reads, and
    the characters after the last field read are never looked at: whatever
    is appended to a hexadecimal string that decodes within its length,
    the decode returns the same record. *)
Theorem trailing_characters_are_ignored (tx junk : str) (t : transaction) (o_end : Z) :
  all_hex tx = true ->
  parse_transaction_cursor tx = Ok (t, o_end) ->
  o_end <= len tx ->
  parse_transaction (tx ++ junk) = Ok t.
Proof.
  intros Hhex Hp Hend.
  apply parse_transaction_cursor_decoded, decoded_stages in Hp.
  destruct Hp as (c & lb & Hs & Hl & -> & Hlt).
  pose proof (stages_cursors _ _ _ Hhex Hs) as (G1 & G2 & G3 & G4 & G5 & G6).
  pose proof (same_prefix_app tx junk) as Hpre.
  assert (G : 0 <= after_witnesses c) by lia.
  apply parse_transaction_decoded. exists (after_witnesses c + 8).
  apply decoded_stages. exists c, lb.
  split; [|split; [|split; [reflexivity | exact Hlt]]].
  - apply (stages_same_prefix tx _ t c Hhex Hs).
    apply (same_prefix_le _ _ _ _ Hpre). lia.
  - destruct (read_bytes_reads 4 ltac:(lia) _ _ _ _ Hhex G Hl) as (_ & _ & Hloc).
    apply Hloc. apply (same_prefix_le _ _ _ _ Hpre). lia.
Qed.

Lemma trailing_characters_are_ignored_witness :
  all_hex sample_tx_hex = true /\
  parse_transaction_cursor sample_tx_hex = Ok (sample_tx, 444) /\
  444 <= len sample_tx_hex /\
  parse_transaction (sample_tx_hex ++ lit "0 not hex") = Ok sample_tx.
Proof.
  split; [reflexivity|]. split; [vm_compute; reflexivity|].
  split; [vm_compute; discriminate|].
  apply (trailing_characters_are_ignored sample_tx_hex (lit "0 not hex") sample_tx 444);
    [reflexivity | vm_compute; reflexivity | vm_compute; discriminate].
Defined.

(** C9 fails as stated: a string of odd length and a string with characters
    that are not hexadecimal digits both decode. *)
Lemma malformed_hex_is_decoded :
  Nat.odd (List.length (sample_tx_hex ++ lit "0")) = true /\
  parse_transaction (sample_tx_hex ++ lit "0") = Ok sample_tx /\
  all_hex (sample_tx_hex ++ lit "zz") = false /\
  parse_transaction (sample_tx_hex ++ lit "zz") = Ok sample_tx.
Proof. vm_compute. repeat split; reflexivity. Qed.

(** ** The sample transaction *)

(** C4: decoding the sample transaction of the main block gives version 2,
    segwit true, one input with vout 1 and sequence 0xfffffffd, two outputs,
    one witness stack of two items and locktime 0x000e0343. *)
Theorem sample_transaction_decodes :
  exists t i w,
    parse_transaction sample_tx_hex = Ok t /\
    version t = 2 /\ segwit t = true /\
    inputs t = [i] /\ vout i = 1 /\ sequence i = 0xfffffffd /\
    List.length (outputs t) = 2%nat /\
    witnesses t = [w] /\ List.length w = 2%nat /\
    locktime t = 0x000e0343.
Proof.
  do 3 eexists. vm_compute. repeat split; reflexivity.
Qed.

(** ** Variable-length integers *)

Lemma slice_nonempty {A} (x : list A) (a b : Z) :
  0 <= a -> a < b -> a < len x -> slice x a b <> [].
Proof.
  intros Ha Hab Hl E.
  assert (H : len (slice x a b) = Z.min b (len x) - a).
  { unfold slice. rewrite !adjust_index_nonneg by lia.
    rewrite (Z.min_l a) by lia.
    unfold len at 1. rewrite length_firstn, length_skipn. unfold len in *. lia. }
  rewrite E in H. change (len (@nil A)) with 0 in H. lia.
Qed.

(** On hexadecimal input [read_varint] returns the first byte when it is
    below 0xfd, and otherwise the positional value of the payload
    characters as they stand in the string, first character most
    significant (also when fewer payload characters are left than the form
    announces). *)
Lemma read_varint_on_hex (tx : str) (o : Z) :
  all_hex tx = true -> 0 <= o -> o < len tx ->
  let first := be_value (slice tx o (o + 2)) in
  (first < 253 -> read_varint tx o = Ok (first, o + 2)) /\
  (forall w, first = 253 /\ w = 4 \/ first = 254 /\ w = 8 \/ 254 < first /\ w = 16 ->
     o + 2 < len tx ->
     read_varint tx o = Ok (be_value (slice tx (o + 2) (o + 2 + w)), o + 2 + w)).
Proof.
  intros Hhex Ho Hl first.
  assert (E1 : int16 (slice tx o (o + 2)) = Ok first).
  { apply int16_hex; [now apply all_hex_slice | apply slice_nonempty; lia]. }
  unfold read_varint. rewrite E1. cbn [bind]. split.
  - intro Hf. destruct (Z.ltb_spec first 253); [reflexivity | lia].
  - intros w Hw Hl2.
    assert (E2 : int16 (slice tx (o + 2) (o + 2 + w))
                 = Ok (be_value (slice tx (o + 2) (o + 2 + w)))).
    { apply int16_hex; [now apply all_hex_slice | apply slice_nonempty; lia]. }
    destruct (Z.ltb_spec first 253); [lia|].
    destruct (Z.eqb_spec first 253); [|destruct (Z.eqb_spec first 254)].
    + assert (w = 4) by lia. subst w. now rewrite E2.
    + assert (w = 8) by lia. subst w. now rewrite E2.
    + assert (w = 16) by lia. subst w. now rewrite E2.
Qed.

(** C1: the multi-byte forms of [read_varint] consume 3, 5 and 9 bytes but
    read the payload most significant byte first: the encodings of 253,
    65536 and 2^32 decode to 64768, 256 and 16777216, whereas the same
    payload bytes read little-endian give the encoded values. *)
Theorem read_varint_payload_big_endian :
  read_varint (lit "fdfd00") 0 = Ok (64768, 6) /\
  read_varint (lit "fe00000100") 0 = Ok (256, 10) /\
  read_varint (lit "ff0000000001000000") 0 = Ok (16777216, 18) /\
  (bs <- fromhex (lit "fd00") ;; Ok (int_from_bytes_little bs)) = Ok 253 /\
  (bs <- fromhex (lit "00000100") ;; Ok (int_from_bytes_little bs)) = Ok 65536 /\
  (bs <- fromhex (lit "0000000001000000") ;; Ok (int_from_bytes_little bs)) = Ok (2 ^ 32).
Proof. vm_compute. repeat split; reflexivity. Qed.

(** * Further properties of the decoder *)

(** ** The primitive reads on hexadecimal input *)

Lemma fold_digits_bound (x : str) (acc : Z) :
  all_hex x = true -> 0 <= acc ->
  fold_left (fun acc c => acc * 16 + digit_value c) x acc < (acc + 1) * 16 ^ len x.
Proof.
  revert acc. induction x as [|c x IH]; intros acc H Hacc.
  - change (len (@nil ascii)) with 0. rewrite Z.pow_0_r. simpl. lia.
  - simpl in H. apply andb_true_iff in H as [Hc Hx].
    pose proof (digit_value_hex c Hc) as Hd.
    replace (len (c :: x)) with (Z.succ (len x)) by (unfold len; simpl; lia).
    rewrite Z.pow_succ_r by apply len_nonneg.
    cbn [fold_left].
    specialize (IH (acc * 16 + digit_value c) Hx ltac:(lia)).
    assert (0 < 16 ^ len x) by (apply Z.pow_pos_nonneg; [lia | apply len_nonneg]).
    nia.
Qed.

Lemma be_value_bound (x : str) (w : Z) :
  all_hex x = true -> len x <= w -> 0 <= be_value x < 16 ^ w.
Proof.
  intros H Hw. split; [now apply be_value_nonneg|].
  pose proof (fold_digits_bound x 0 H ltac:(lia)) as Hb. fold (be_value x) in Hb.
  assert (16 ^ len x <= 16 ^ w)
    by (apply Z.pow_le_mono_r; [lia | exact Hw]).
  lia.
Qed.

(** X1: on hexadecimal input a varint that is read has a first byte in
    0..255; below 0xfd it is the value and 1 byte is consumed, and for 0xfd,
    0xfe, 0xff the value is the positional value of the payload characters,
    below 2^16, 2^32, 2^64, with 3, 5, 9 bytes consumed.  No minimal
    encoding is required. *)
Theorem read_varint_value_range (tx : str) (o v o' : Z) :
  all_hex tx = true -> 0 <= o ->
  read_varint tx o = Ok (v, o') ->
  let first := be_value (slice tx o (o + 2)) in
  0 <= first < 256 /\
  (first < 253 -> v = first /\ o' = o + 2) /\
  (first = 253 ->
   v = be_value (slice tx (o + 2) (o + 6)) /\ 0 <= v < 2 ^ 16 /\ o' = o + 6) /\
  (first = 254 ->
   v = be_value (slice tx (o + 2) (o + 10)) /\ 0 <= v < 2 ^ 32 /\ o' = o + 10) /\
  (first = 255 ->
   v = be_value (slice tx (o + 2) (o + 18)) /\ 0 <= v < 2 ^ 64 /\ o' = o + 18).
Proof.
  intros Hhex Ho E first.
  assert (Hfirst : 0 <= first < 256).
  { change 256 with (16 ^ 2). apply be_value_bound; [now apply all_hex_slice|].
    pose proof (slice_length_le tx o (o + 2) ltac:(lia)). lia. }
  assert (Hpay : forall w, 0 <= w ->
            0 <= be_value (slice tx (o + 2) (o + 2 + w)) < 16 ^ w).
  { intros w Hw. apply be_value_bound; [now apply all_hex_slice|].
    pose proof (slice_length_le tx (o + 2) (o + 2 + w) ltac:(lia)). lia. }
  unfold read_varint in E.
  destruct (int16 (slice tx o (o + 2))) as [fb|e] eqn:E1; [|discriminate E].
  destruct (int16_slice_hex _ _ _ _ Hhex E1) as (_ & Hfb & _). fold first in Hfb.
  subst fb. cbn [bind] in E.
  split; [exact Hfirst|].
  destruct (Z.ltb_spec first 253).
  { inversion E; subst. repeat split; intros; lia. }
  destruct (Z.eqb_spec first 253); [|destruct (Z.eqb_spec first 254)];
    (destruct (int16 _) as [v0|e0] eqn:E2; [|discriminate E]);
    destruct (int16_slice_hex _ _ _ _ Hhex E2) as (_ & Hv0 & _);
    cbn [bind] in E; inversion E; subst v0 o'; clear E.
  - pose proof (Hpay 4 ltac:(lia)) as Hp. replace (o + 2 + 4) with (o + 6) in * by lia.
    change (16 ^ 4) with (2 ^ 16) in Hp.
    split; [intro; lia|]. split; [intros _; repeat split; (assumption || lia)|].
    split; intro; lia.
  - pose proof (Hpay 8 ltac:(lia)) as Hp. replace (o + 2 + 8) with (o + 10) in * by lia.
    change (16 ^ 8) with (2 ^ 32) in Hp.
    split; [intro; lia|]. split; [intro; lia|].
    split; [intros _; repeat split; (assumption || lia)|]. intro; lia.
  - pose proof (Hpay 16 ltac:(lia)) as Hp. replace (o + 2 + 16) with (o + 18) in * by lia.
    change (16 ^ 16) with (2 ^ 64) in Hp.
    split; [intro; lia|]. split; [intro; lia|]. split; [intro; lia|].
    intros _; repeat split; (assumption || lia).
Qed.

Lemma read_varint_value_range_witness :
  all_hex (lit "fd0005") = true /\ 0 <= 0 /\
  read_varint (lit "fd0005") 0 = Ok (5, 6) /\
  let first := be_value (slice (lit "fd0005") 0 (0 + 2)) in
  0 <= first < 256 /\
  (first < 253 -> 5 = first /\ 6 = 0 + 2) /\
  (first = 253 ->
   5 = be_value (slice (lit "fd0005") (0 + 2) (0 + 6)) /\ 0 <= 5 < 2 ^ 16 /\ 6 = 0 + 6) /\
  (first = 254 ->
   5 = be_value (slice (lit "fd0005") (0 + 2) (0 + 10)) /\ 0 <= 5 < 2 ^ 32 /\ 6 = 0 + 10) /\
  (first = 255 ->
   5 = be_value (slice (lit "fd0005") (0 + 2) (0 + 18)) /\ 0 <= 5 < 2 ^ 64 /\ 6 = 0 + 18).
Proof.
  split; [reflexivity|]. split; [lia|]. split; [reflexivity|].
  apply (read_varint_value_range (lit "fd0005") 0 5 6); [reflexivity | lia | reflexivity].
Defined.

(** X2: on hexadecimal input [read_varint] raises exactly when no character
    is left at the cursor, or the first byte announces a payload (0xfd and
    above) of which not one character is left; a payload cut short is read
    without complaint. *)
Theorem read_varint_raises_iff (tx : str) (o : Z) :
  all_hex tx = true -> 0 <= o ->
  (read_varint tx o = Raise ValueError <->
   len tx <= o \/ (253 <= be_value (slice tx o (o + 2)) /\ len tx <= o + 2)).
Proof.
  intros Hhex Ho.
  destruct (Z.le_gt_cases (len tx) o) as [Hl|Hl].
  { split; [auto | intros _; now apply read_varint_past_end]. }
  destruct (read_varint_on_hex tx o Hhex Ho ltac:(lia)) as [Hshort Hlong].
  set (first := be_value (slice tx o (o + 2))) in *.
  destruct (Z.lt_ge_cases first 253) as [Hf|Hf].
  { rewrite (Hshort Hf). split; [discriminate | intros [?|[? ?]]; lia]. }
  destruct (Z.le_gt_cases (len tx) (o + 2)) as [Hp|Hp].
  - split; [auto|]. intros _.
    assert (E1 : int16 (slice tx o (o + 2)) = Ok first).
    { apply int16_hex; [now apply all_hex_slice | apply slice_nonempty; lia]. }
    unfold read_varint. rewrite E1. cbn [bind].
    destruct (Z.ltb_spec first 253); [lia|].
    rewrite !(slice_past_end tx (o + 2)) by lia.
    destruct (first =? 253); [reflexivity|]. destruct (first =? 254); reflexivity.
  - assert (Hw : exists w, first = 253 /\ w = 4 \/ first = 254 /\ w = 8 \/ 254 < first /\ w = 16).
    { destruct (Z.eq_dec first 253); [exists 4; lia|].
      destruct (Z.eq_dec first 254); [exists 8; lia|]. exists 16; lia. }
    destruct Hw as [w Hw]. rewrite (Hlong w Hw ltac:(lia)).
    split; [discriminate | intros [?|[? ?]]; lia].
Qed.

Lemma read_varint_raises_iff_witness :
  all_hex (lit "00fd") = true /\ 0 <= 2 /\
  (read_varint (lit "00fd") 2 = Raise ValueError <->
   len (lit "00fd") <= 2 \/
   (253 <= be_value (slice (lit "00fd") 2 (2 + 2)) /\ len (lit "00fd") <= 2 + 2)).
Proof.
  split; [reflexivity|]. split; [lia|].
  apply (read_varint_raises_iff (lit "00fd") 2); [reflexivity | lia].
Defined.

Lemma Z_even_of_nat (n : nat) : Z.even (Z.of_nat n) = Nat.even n.
Proof.
  apply eq_true_iff_eq. rewrite Z.even_spec, Nat.even_spec. split.
  - intros [m Hm]. exists (Z.to_nat m). lia.
  - intros [m Hm]. exists (Z.of_nat m). lia.
Qed.

Lemma slice_length_available (tx : str) (o n : Z) :
  0 <= o -> 0 <= n -> len (slice tx o (o + n * 2)) = available tx o n.
Proof.
  intros Ho Hn. unfold slice, available.
  rewrite !adjust_index_nonneg by (pose proof (len_nonneg tx); lia).
  unfold len at 1. rewrite length_firstn, length_skipn. unfold len. lia.
Qed.

(** X3: on hexadecimal input a read of [n] bytes gets the characters from
    the cursor to [2 * n] further or to the end of the string, whichever
    comes first; it returns the bytes they spell, half as many as there are
    characters, and moves the cursor by [2 * n] in any case; it raises only
    when it gets an odd number of characters, which needs a string that ends
    inside the field, in the middle of a byte. *)
Theorem read_bytes_on_hex (tx : str) (o n : Z) :
  all_hex tx = true -> 0 <= o -> 0 <= n ->
  len (slice tx o (o + n * 2)) = available tx o n /\
  read_bytes tx o n
  = (if Z.even (available tx o n)
     then Ok (digit_pairs (slice tx o (o + n * 2)), o + n * 2)
     else Raise ValueError) /\
  len (digit_pairs (slice tx o (o + n * 2))) = available tx o n / 2 /\
  (o + n * 2 <= len tx -> available tx o n = n * 2).
Proof.
  intros Hhex Ho Hn.
  pose proof (slice_length_available tx o n Ho Hn) as Hl.
  split; [exact Hl|]. split; [|split].
  - unfold read_bytes.
    rewrite (fromhex_hex _ (all_hex_slice tx o (o + n * 2) Hhex)).
    rewrite <- Z_even_of_nat. fold (len (slice tx o (o + n * 2))). rewrite Hl.
    destruct (Z.even (available tx o n)); reflexivity.
  - rewrite <- Hl. unfold len. rewrite length_digit_pairs, Nat.div2_div.
    now rewrite Nat2Z.inj_div.
  - intro Hfit. unfold available. lia.
Qed.

Lemma read_bytes_on_hex_witness :
  all_hex (lit "0200000") = true /\ 0 <= 0 /\ 0 <= 4 /\
  len (slice (lit "0200000") 0 (0 + 4 * 2)) = available (lit "0200000") 0 4 /\
  read_bytes (lit "0200000") 0 4
  = (if Z.even (available (lit "0200000") 0 4)
     then Ok (digit_pairs (slice (lit "0200000") 0 (0 + 4 * 2)), 0 + 4 * 2)
     else Raise ValueError) /\
  len (digit_pairs (slice (lit "0200000") 0 (0 + 4 * 2)))
  = available (lit "0200000") 0 4 / 2 /\
  (0 + 4 * 2 <= len (lit "0200000") -> available (lit "0200000") 0 4 = 4 * 2).
Proof.
  split; [reflexivity|]. split; [lia|]. split; [lia|].
  apply (read_bytes_on_hex (lit "0200000") 0 4); [reflexivity | lia | lia].
Defined.

(** ** Inputs too short to hold a transaction *)

(** X4: a string of at most 10 characters (5 bytes), the empty string
    included, never decodes: whatever it contains, [parse_transaction]
    raises ValueError, at the latest when it looks for the flag byte. *)
Theorem short_input_raises (tx : str) :
  len tx <= 10 -> parse_transaction tx = Raise ValueError.
Proof.
  intro Hl. unfold parse_transaction, parse_transaction_cursor.
  destruct (read_bytes tx 0 4) as [[vb o]|[]] eqn:E; [|reflexivity].
  destruct (read_bytes_offset _ _ _ _ _ E) as [_ ->]. cbn [bind].
  change (0 + 4 * 2) with 8. unfold check_segwit.
  change (8 + 2) with 10. rewrite (slice_past_end tx 10 (8 + 4)) by lia.
  destruct (int16 (slice tx 8 10)) as [m|[]]; reflexivity.
Qed.

Lemma short_input_raises_witness :
  len (lit "0200000000") <= 10 /\
  parse_transaction (lit "0200000000") = Raise ValueError.
Proof.
  split; [vm_compute; discriminate|].
  apply (short_input_raises (lit "0200000000")). vm_compute. discriminate.
Defined.

(** ** The texts of the record *)

Lemma hex_char_lower (c : ascii) :
  is_hex c = true -> hex_char (digit_value c) = lower c.
Proof.
  destruct c as [[] [] [] [] [] [] [] []]; vm_compute; intro H;
    try discriminate H; reflexivity.
Qed.

Lemma byte_hex_text (b : byte) :
  let hi := hex_char (byte_value b / 16) in
  let lo := hex_char (byte_value b mod 16) in
  is_hex hi = true /\ is_hex lo = true /\ lower hi = hi /\ lower lo = lo.
Proof. destruct b; vm_compute; repeat split. Qed.

(** [bytes.fromhex] followed by [hex] gives the digits back in lower
    case. *)
Lemma hex_digit_pairs (x : str) :
  all_hex x = true -> Nat.even (List.length x) = true ->
  hex (digit_pairs x) = map lower x.
Proof.
  induction x as [|c|c d x IH] using pair_induction; intros H He.
  - reflexivity.
  - discriminate He.
  - simpl in H. apply andb_true_iff in H as [Hc H]. apply andb_true_iff in H as [Hd Hx].
    change (hex (digit_pairs (c :: d :: x))) with
      ([hex_char (byte_value (byte_of_nibbles (digit_value c) (digit_value d)) / 16);
        hex_char (byte_value (byte_of_nibbles (digit_value c) (digit_value d)) mod 16)]
       ++ hex (digit_pairs x)).
    pose proof (digit_value_hex c Hc) as Bc. pose proof (digit_value_hex d Hd) as Bd.
    rewrite byte_value_of_nibbles by assumption.
    replace ((16 * digit_value c + digit_value d) / 16) with (digit_value c)
      by (apply (Z.div_unique _ 16 _ (digit_value d)); lia).
    replace ((16 * digit_value c + digit_value d) mod 16) with (digit_value d)
      by (apply (Z.mod_unique _ 16 (digit_value c)); lia).
    rewrite !hex_char_lower by assumption.
    rewrite (IH Hx He). reflexivity.
Qed.

Lemma read_bytes_hex_lower (tx : str) (o n : Z) (bs : bytes) (o' : Z) :
  all_hex tx = true -> read_bytes tx o n = Ok (bs, o') ->
  bs = digit_pairs (slice tx o (o + n * 2)) /\
  hex bs = map lower (slice tx o (o + n * 2)).
Proof.
  intros Hhex E. destruct (read_bytes_offset _ _ _ _ _ E) as [Ef _].
  pose proof (all_hex_slice tx o (o + n * 2) Hhex) as Hs.
  rewrite (fromhex_hex _ Hs) in Ef.
  destruct (Nat.even (List.length (slice tx o (o + n * 2)))) eqn:He; [|discriminate Ef].
  inversion Ef; subst bs. split; [reflexivity|]. now apply hex_digit_pairs.
Qed.

Lemma hex_is_hex_text (bs : bytes) : hex_text (hex bs).
Proof.
  unfold hex_text. rewrite length_hex. split; [|split].
  - unfold all_hex, hex. induction bs as [|b bs IH]; [reflexivity|].
    destruct (byte_hex_text b) as (Hh & Hl & _).
    cbn [flat_map app forallb]. now rewrite Hh, Hl, IH.
  - rewrite Z.even_mul. reflexivity.
  - unfold hex. induction bs as [|b bs IH]; [reflexivity|].
    destruct (byte_hex_text b) as (_ & _ & Hh & Hl).
    cbn [flat_map app map]. now rewrite Hh, Hl, IH.
Qed.

Lemma parse_witness_items_of (tx : str) (o : Z) (w : list str) (o' : Z) :
  parse_witness tx o = Ok (w, o') ->
  exists count o1,
    read_varint tx o = Ok (count, o1) /\
    List.length w = range_len count /\
    in_order parse_witness_item tx o1 w o'.
Proof.
  unfold parse_witness. intro H. bind_inv H.
  destruct (for_range_in_order _ _ _ _ _ _ _ H) as (l' & -> & Hlen & Hord).
  cbn [app]. eauto.
Qed.

(** X5: whatever the input string, every text of a returned record (each
    txid, scriptSig, scriptPubKey and witness item) is made of lower-case
    hexadecimal digits and has an even number of them. *)
Theorem record_texts_are_hex (tx : str) (t : transaction) :
  parse_transaction tx = Ok t ->
  Forall (fun i => hex_text (txid i) /\ hex_text (scriptSig i)) (inputs t) /\
  Forall (fun out => hex_text (scriptPubKey out)) (outputs t) /\
  Forall (Forall hex_text) (witnesses t).
Proof.
  intro Ht. apply parse_transaction_decoded in Ht as [o' Hd].
  destruct Hd as [vb sw o1 ic o2 ins o3 oc o4 outs o5 wits o6 lb H1 H2 H3 H4 H5 H6 H7 H8].
  cbn [inputs outputs witnesses]. split; [|split].
  - destruct (for_range_in_order _ _ _ _ _ _ _ H4) as (l' & -> & _ & Hord).
    cbn [app]. eapply in_order_Forall; [exact Hord|].
    intros oa i ob Hb. unfold parse_input in Hb. do 5 bind_inv Hb.
    inversion Hb; subst i ob. cbn [txid scriptSig]. split; apply hex_is_hex_text.
  - destruct (for_range_in_order _ _ _ _ _ _ _ H6) as (l' & -> & _ & Hord).
    cbn [app]. eapply in_order_Forall; [exact Hord|].
    intros oa out ob Hb. unfold parse_output in Hb. do 3 bind_inv Hb.
    inversion Hb; subst out ob. cbn [scriptPubKey]. apply hex_is_hex_text.
  - destruct sw; [|inversion H7; constructor].
    destruct (for_range_in_order _ _ _ _ _ _ _ H7) as (l' & -> & _ & Hord).
    cbn [app]. eapply in_order_Forall; [exact Hord|].
    intros oa w ob Hb.
    destruct (parse_witness_items_of _ _ _ _ Hb) as (c & oc1 & _ & _ & Hitems).
    eapply in_order_Forall; [exact Hitems|].
    intros oi item oj Hi. unfold parse_witness_item in Hi. do 2 bind_inv Hi.
    inversion Hi; subst item oj. apply hex_is_hex_text.
Qed.

Lemma record_texts_are_hex_witness :
  parse_transaction sample_tx_hex = Ok sample_tx /\
  Forall (fun i => hex_text (txid i) /\ hex_text (scriptSig i)) (inputs sample_tx) /\
  Forall (fun out => hex_text (scriptPubKey out)) (outputs sample_tx) /\
  Forall (Forall hex_text) (witnesses sample_tx).
Proof.
  split; [vm_compute; reflexivity|].
  apply (record_texts_are_hex sample_tx_hex sample_tx). vm_compute. reflexivity.
Defined.

(** ** What a record holds, in terms of the input characters *)





Lemma parse_output_chars (tx : str) (o : Z) (out : tx_output) (o' : Z) :
  all_hex tx = true -> 0 <= o ->
  parse_output tx o = Ok (out, o') ->
  exists script_len a,
    o + 16 < len tx /\
    read_varint tx (o + 16) = Ok (script_len, a) /\
    0 <= script_len /\ o' = a + script_len * 2 /\
    value out = div_1e8 (int_from_bytes_little (digit_pairs (slice tx o (o + 16)))) /\
    scriptPubKey out = map lower (slice tx a (a + script_len * 2)) /\
    len (scriptPubKey out) = available tx a script_len.
Proof.
  intros Hhex Ho. unfold parse_output. intro H. do 3 bind_inv H.
  inversion H; subst out o'; clear H. cbn [value scriptPubKey].
  destruct (read_bytes_offset _ _ _ _ _ E) as [_ ->].
  destruct (read_bytes_offset _ _ _ _ _ E1) as [_ ->].
  replace (o + 8 * 2) with (o + 16) in * by lia.
  assert (G : 0 <= o + 16) by lia.
  destruct (read_varint_reads _ _ _ _ Hhex G E0) as (Hlen & Hadv & _).
  pose proof (read_varint_in_bounds _ _ _ _ G E0) as Hin.
  destruct (read_bytes_hex_lower _ _ _ _ _ Hhex E) as [-> _].
  destruct (read_bytes_hex_lower _ _ _ _ _ Hhex E1) as [_ Hs].
  exists z0, z1. rewrite Hs. replace (8 * 2) with 16 by lia.
  repeat split; try assumption; try lia.
  unfold len. rewrite length_map. apply slice_length_available; lia.
Qed.






(** ** Counts against the size of the input *)

Lemma in_order_span {A} (P : A -> Prop) (body : reader A) (tx : str) (k m : Z)
      (o : Z) (l : list A) (o' : Z) :
  reads P body -> all_hex tx = true -> 0 <= o -> 0 <= m <= k ->
  (forall oa a ob, 0 <= oa -> body tx oa = Ok (a, ob) ->
     oa + k <= ob /\ oa + m < len tx) ->
  in_order body tx o l o' ->
  o + k * len l <= o' /\ (l <> [] -> o + k * len l + m - k < len tx).
Proof.
  intros Hr Hhex Ho Hk Hstep H. induction H as [o|o o1 o' a l Hb Hrest IH].
  - change (len (@nil A)) with 0. split; [lia | congruence].
  - destruct (Hstep _ _ _ Ho Hb) as [Hadv Hin].
    assert (Ho1 : 0 <= o1) by lia.
    destruct (IH Ho1) as [IH1 IH2].
    replace (len (a :: l)) with (len l + 1) by (unfold len; simpl; lia).
    split; [lia|]. intros _.
    destruct l as [|b l].
    + change (len (@nil A)) with 0. lia.
    + specialize (IH2 ltac:(discriminate)). lia.
Qed.

Lemma parse_input_span (tx : str) (o : Z) (i : tx_input) (o' : Z) :
  all_hex tx = true -> 0 <= o -> parse_input tx o = Ok (i, o') ->
  o + 82 <= o' /\ o + 72 < len tx.
Proof.
  intros Hhex Ho. unfold parse_input. intro H. do 5 bind_inv H.
  inversion H; subst i o'; clear H.
  destruct (read_bytes_offset _ _ _ _ _ E) as [_ ->].
  destruct (read_bytes_offset _ _ _ _ _ E0) as [_ ->].
  destruct (read_bytes_offset _ _ _ _ _ E2) as [_ ->].
  destruct (read_bytes_offset _ _ _ _ _ E3) as [_ ->].
  assert (G : 0 <= o + 32 * 2 + 4 * 2) by lia.
  destruct (read_varint_reads _ _ _ _ Hhex G E1) as (Hlen & _ & _).
  pose proof (read_varint_advance _ _ _ _ E1) as Hadv.
  pose proof (read_varint_in_bounds _ _ _ _ G E1) as Hin.
  lia.
Qed.

Lemma parse_output_span (tx : str) (o : Z) (out : tx_output) (o' : Z) :
  all_hex tx = true -> 0 <= o -> parse_output tx o = Ok (out, o') ->
  o + 18 <= o' /\ o + 16 < len tx.
Proof.
  intros Hhex Ho Hb.
  destruct (parse_output_chars tx o out o' Hhex Ho Hb)
    as (sl & a & Hin & Hv & Hsl & -> & _).
  pose proof (read_varint_advance _ _ _ _ Hv). lia.
Qed.

(** X9: a hexadecimal string only decodes to what it has room for: every
    input takes at least 41 bytes and every output at least 9, so 82
    characters per input plus 18 per output plus 10 stay below the length of
    the string.  A count that announces more makes the decode raise. *)
Theorem counts_fit_the_input (tx : str) (t : transaction) :
  all_hex tx = true ->
  parse_transaction tx = Ok t ->
  82 * len (inputs t) + 18 * len (outputs t) + 10 < len tx.
Proof.
  intros Hhex Ht. apply parse_transaction_decoded in Ht as [o' Hd].
  apply decoded_stages in Hd as (c & lb & Hs & _ & _ & _).
  pose proof (stages_cursors _ _ _ Hhex Hs) as (G1 & G2 & G3 & G4 & G5 & G6).
  destruct Hs as (_ & _ & _ & H4 & H5 & H6 & _).
  destruct (for_range_in_order _ _ _ _ _ _ _ H4) as (li & Hli & _ & Hordi).
  destruct (for_range_in_order _ _ _ _ _ _ _ H6) as (lo & Hlo & _ & Hordo).
  cbn [app] in Hli, Hlo. rewrite Hli, Hlo.
  assert (Gi : 0 <= after_input_count c) by lia.
  assert (Go : 0 <= after_output_count c) by lia.
  assert (G' : 0 <= after_inputs c) by lia.
  pose proof (read_varint_in_bounds _ _ _ _ G' H5) as Hin.
  destruct (in_order_span _ _ tx 82 72 _ _ _ parse_input_reads Hhex Gi ltac:(lia)
              (fun oa a ob Hoa Hb => parse_input_span tx oa a ob Hhex Hoa Hb) Hordi)
    as [Si _].
  destruct (in_order_span _ _ tx 18 16 _ _ _ parse_output_reads Hhex Go ltac:(lia)
              (fun oa a ob Hoa Hb => parse_output_span tx oa a ob Hhex Hoa Hb) Hordo)
    as [So So'].
  destruct lo as [|out lo].
  - change (len (@nil tx_output)) with 0. lia.
  - specialize (So' ltac:(discriminate)). lia.
Qed.

Lemma counts_fit_the_input_witness :
  all_hex sample_tx_hex = true /\
  parse_transaction sample_tx_hex = Ok sample_tx /\
  82 * len (inputs sample_tx) + 18 * len (outputs sample_tx) + 10 < len sample_tx_hex.
Proof.
  split; [reflexivity|]. split; [vm_compute; reflexivity|].
  apply (counts_fit_the_input sample_tx_hex sample_tx);
    [reflexivity | vm_compute; reflexivity].
Defined.

(** ** Letter case *)

Lemma slice_map {A B} (f : A -> B) (x : list A) (a b : Z) :
  slice (map f x) a b = map f (slice x a b).
Proof.
  unfold slice, len. rewrite length_map.
  now rewrite <- firstn_map, <- skipn_map.
Qed.

Lemma be_value_digits (x : str) :
  be_value x = fold_left (fun acc d => acc * 16 + d) (map digit_value x) 0.
Proof.
  unfold be_value. generalize 0 as acc.
  induction x as [|c x IH]; intro acc; cbn [map fold_left]; [reflexivity | apply IH].
Qed.

Lemma digit_pairs_digits (x : str) : digit_pairs x = value_pairs (map digit_value x).
Proof.
  induction x as [|c|c d x IH] using pair_induction; try reflexivity.
  cbn [map digit_pairs value_pairs]. now rewrite IH.
Qed.

Section LetterCase.

Variables tx tx' : str.
Hypothesis Hhex : all_hex tx = true.
Hypothesis Hhex' : all_hex tx' = true.
Hypothesis Hsame : map digit_value tx = map digit_value tx'.

Lemma same_digits_slice (a b : Z) :
  map digit_value (slice tx a b) = map digit_value (slice tx' a b).
Proof. now rewrite <- !slice_map, Hsame. Qed.

Lemma same_length_slice (a b : Z) :
  List.length (slice tx a b) = List.length (slice tx' a b).
Proof.
  rewrite <- (length_map digit_value (slice tx a b)), same_digits_slice.
  apply length_map.
Qed.

Lemma int16_same_digits (a b : Z) : int16 (slice tx a b) = int16 (slice tx' a b).
Proof.
  pose proof (same_length_slice a b) as Hl.
  destruct (slice tx a b) as [|c x] eqn:E.
  - destruct (slice tx' a b); [reflexivity | discriminate Hl].
  - rewrite <- E.
    rewrite (int16_hex (slice tx a b)); [|now apply all_hex_slice | rewrite E; discriminate].
    rewrite (int16_hex (slice tx' a b));
      [|now apply all_hex_slice | intro E'; rewrite E' in Hl; discriminate Hl].
    now rewrite !be_value_digits, same_digits_slice.
Qed.

Lemma read_bytes_same_digits (o n : Z) : read_bytes tx o n = read_bytes tx' o n.
Proof.
  unfold read_bytes.
  rewrite (fromhex_hex _ (all_hex_slice tx o (o + n * 2) Hhex)).
  rewrite (fromhex_hex _ (all_hex_slice tx' o (o + n * 2) Hhex')).
  now rewrite same_length_slice, !digit_pairs_digits, same_digits_slice.
Qed.

Lemma read_varint_same_digits (o : Z) : read_varint tx o = read_varint tx' o.
Proof.
  unfold read_varint. rewrite (int16_same_digits o (o + 2)).
  destruct (int16 (slice tx' o (o + 2))) as [fb|e]; [|reflexivity]. cbn [bind].
  now rewrite !int16_same_digits.
Qed.

Lemma check_segwit_same_digits (o : Z) : check_segwit tx o = check_segwit tx' o.
Proof. unfold check_segwit. now rewrite !int16_same_digits. Qed.

Lemma parse_input_same_digits (o : Z) : parse_input tx o = parse_input tx' o.
Proof.
  unfold parse_input.
  rewrite read_bytes_same_digits. same_step.
  rewrite read_bytes_same_digits. same_step.
  rewrite read_varint_same_digits. same_step.
  rewrite read_bytes_same_digits. same_step.
  rewrite read_bytes_same_digits. reflexivity.
Qed.

Lemma parse_output_same_digits (o : Z) : parse_output tx o = parse_output tx' o.
Proof.
  unfold parse_output.
  rewrite read_bytes_same_digits. same_step.
  rewrite read_varint_same_digits. same_step.
  rewrite read_bytes_same_digits. reflexivity.
Qed.

Lemma parse_witness_item_same_digits (o : Z) :
  parse_witness_item tx o = parse_witness_item tx' o.
Proof.
  unfold parse_witness_item.
  rewrite read_varint_same_digits. same_step.
  rewrite read_bytes_same_digits. reflexivity.
Qed.

Lemma for_range_same_digits {A} (body : reader A) (n : nat) (o : Z) (acc : list A) :
  (forall o, body tx o = body tx' o) ->
  for_range body tx n o acc = for_range body tx' n o acc.
Proof.
  intro Hb. revert o acc. induction n as [|n IH]; intros o acc; cbn [for_range].
  - reflexivity.
  - rewrite Hb. same_step. apply IH.
Qed.

Lemma parse_witness_same_digits (o : Z) : parse_witness tx o = parse_witness tx' o.
Proof.
  unfold parse_witness. rewrite read_varint_same_digits. same_step.
  apply for_range_same_digits, parse_witness_item_same_digits.
Qed.

Lemma parse_transaction_cursor_same_digits :
  parse_transaction_cursor tx = parse_transaction_cursor tx'.
Proof.
  unfold parse_transaction_cursor, parse_inputs, parse_outputs, parse_witnesses.
  rewrite read_bytes_same_digits. same_step.
  rewrite check_segwit_same_digits. same_step.
  rewrite read_varint_same_digits. same_step.
  rewrite (for_range_same_digits _ _ _ _ parse_input_same_digits). same_step.
  rewrite read_varint_same_digits. same_step.
  rewrite (for_range_same_digits _ _ _ _ parse_output_same_digits). same_step.
  match goal with
  | |- bind (if ?b then _ else _) _ = _ => destruct b
  end.
  - rewrite (for_range_same_digits _ _ _ _ parse_witness_same_digits). same_step.
    now rewrite read_bytes_same_digits.
  - cbn [bind]. now rewrite read_bytes_same_digits.
Qed.

End LetterCase.

(** X10: the decoder does not look at the case of the hexadecimal letters:
    two strings of hexadecimal digits with the same digit values, such as
    the same transaction written in capitals, in small letters or mixed,
    decode to the same record or both raise. *)
Theorem decode_ignores_letter_case (tx tx' : str) :
  all_hex tx = true -> all_hex tx' = true ->
  map digit_value tx = map digit_value tx' ->
  parse_transaction tx = parse_transaction tx'.
Proof.
  intros H H' Hs. unfold parse_transaction.
  now rewrite (parse_transaction_cursor_same_digits tx tx' H H' Hs).
Qed.

Lemma decode_ignores_letter_case_witness :
  all_hex sample_tx_hex_upper = true /\
  all_hex sample_tx_hex = true /\
  map digit_value sample_tx_hex_upper = map digit_value sample_tx_hex /\
  parse_transaction sample_tx_hex_upper = parse_transaction sample_tx_hex.
Proof.
  split; [reflexivity|]. split; [reflexivity|]. split; [vm_compute; reflexivity|].
  apply (decode_ignores_letter_case sample_tx_hex_upper sample_tx_hex);
    [reflexivity | reflexivity | vm_compute; reflexivity].
Defined.

(** * The SegWit decision, the numeric fields and the txids along the cursor *)

(** ** The decode once the SegWit decision is known *)

Lemma decode_with_decision (tx : str) (sw : bool) (o : Z) (t : transaction) (o_end : Z) :
  check_segwit tx 8 = Ok (sw, o) ->
  (parse_transaction_cursor tx = Ok (t, o_end) <-> decodes_from tx sw o t o_end).
Proof.
  intro Hc. split.
  - intro H. apply parse_transaction_cursor_decoded in H.
    destruct H as [vb sw' o1 ic o2 ins o3 oc o4 outs o5 wits o6 lb H1 H2 H3 H4 H5 H6 H7 H8].
    rewrite Hc in H2. inversion H2; subst sw' o1.
    exists vb, ic, o2, o3, oc, o4, o5, o6, lb.
    cbn [version segwit inputs outputs witnesses locktime].
    repeat split; assumption.
  - intros (vb & ic & o2 & o3 & oc & o4 & o5 & o6 & lb
            & H1 & Hv & Hsw & H3 & H4 & H5 & H6 & H7 & H8 & Hl).
    destruct t as [v s ins outs wits lt].
    cbn [version segwit inputs outputs witnesses locktime] in *. subst v s lt.
    destruct (read_bytes_offset _ _ _ _ _ H8) as [_ ->].
    replace (o6 + 4 * 2) with (o6 + 8) in * by lia.
    apply parse_transaction_cursor_decoded. econstructor; eassumption.
Qed.

Lemma marker_or_flag_unreadable (tx : str) :
  int16 (slice tx 8 10) = Raise ValueError \/ int16 (slice tx 10 12) = Raise ValueError ->
  parse_transaction tx = Raise ValueError.
Proof.
  intro H. unfold parse_transaction, parse_transaction_cursor.
  destruct (read_bytes tx 0 4) as [[vb o]|[]] eqn:E; [|reflexivity].
  destruct (read_bytes_offset _ _ _ _ _ E) as [_ ->]. cbn [bind].
  change (0 + 4 * 2) with 8. unfold check_segwit.
  change (8 + 2) with 10. change (8 + 4) with 12.
  destruct H as [H|H]; rewrite H; [reflexivity|].
  destruct (int16 (slice tx 8 10)) as [m|[]]; reflexivity.
Qed.

(** C3: for every input string the SegWit decision is taken on the two
    bytes after the 4-byte version.  When both can be read, the string
    decodes exactly as the reads of a decode whose segwit is
    [marker = 0 and flag <> 0] and whose input count is read 2 bytes (4
    characters) further in that case and at the unchanged cursor 8
    otherwise, where a marker below 0xfd is itself the input count; when
    one of them cannot be read the decode raises. *)
Theorem segwit_detection (tx : str) :
  match int16 (slice tx 8 10), int16 (slice tx 10 12) with
  | Ok marker, Ok flag =>
      let sw := (marker =? 0) && negb (flag =? 0) in
      let o := if sw then 8 + 4 else 8 in
      check_segwit tx 8 = Ok (sw, o) /\
      (forall t o_end,
          parse_transaction_cursor tx = Ok (t, o_end) <-> decodes_from tx sw o t o_end) /\
      (sw = false -> marker < 253 ->
       forall count o2, read_varint tx o = Ok (count, o2) ->
                        count = marker /\ o2 = 8 + 2)
  | _, _ => parse_transaction tx = Raise ValueError
  end.
Proof.
  destruct (int16 (slice tx 8 10)) as [marker|[]] eqn:Hm;
    [destruct (int16 (slice tx 10 12)) as [flag|[]] eqn:Hf|].
  - intros sw o.
    pose proof (check_segwit_spec tx 8 marker flag Hm Hf) as Hc.
    fold sw in Hc. fold o in Hc.
    split; [exact Hc|]. split.
    + intros t o_end. now apply decode_with_decision.
    + intros Hsw Hlt count o2 Hv. unfold o in Hv. rewrite Hsw in Hv.
      unfold read_varint in Hv. change (8 + 2) with 10 in *. rewrite Hm in Hv.
      cbn [bind] in Hv. destruct (Z.ltb_spec marker 253); [|lia].
      inversion Hv. auto.
  - apply marker_or_flag_unreadable. now right.
  - apply marker_or_flag_unreadable. now left.
Qed.

Lemma segwit_detection_witness :
  (parse_transaction_cursor sample_tx_hex = Ok (sample_tx, 444) /\
   segwit sample_tx = true /\
   decodes_from sample_tx_hex true 12 sample_tx 444) /\
  (parse_transaction_cursor legacy_tx_hex = Ok (legacy_tx, 120) /\
   segwit legacy_tx = false /\
   decodes_from legacy_tx_hex false 8 legacy_tx 120 /\
   read_varint legacy_tx_hex 8 = Ok (1, 10)) /\
  parse_transaction (lit "0200000000") = Raise ValueError.
Proof.
  split; [|split].
  - assert (E : parse_transaction_cursor sample_tx_hex = Ok (sample_tx, 444))
      by (vm_compute; reflexivity).
    split; [exact E|]. split; [reflexivity|].
    pose proof (segwit_detection sample_tx_hex) as H.
    assert (Em : int16 (slice sample_tx_hex 8 10) = Ok 0) by reflexivity.
    assert (Ef : int16 (slice sample_tx_hex 10 12) = Ok 1) by reflexivity.
    rewrite Em, Ef in H. destruct H as (_ & H & _).
    apply (proj1 (H sample_tx 444)). exact E.
  - assert (E : parse_transaction_cursor legacy_tx_hex = Ok (legacy_tx, 120))
      by (vm_compute; reflexivity).
    split; [exact E|]. split; [reflexivity|].
    pose proof (segwit_detection legacy_tx_hex) as H.
    assert (Em : int16 (slice legacy_tx_hex 8 10) = Ok 1) by reflexivity.
    assert (Ef : int16 (slice legacy_tx_hex 10 12) = Ok 0) by reflexivity.
    rewrite Em, Ef in H. destruct H as (_ & H & _).
    split; [apply (proj1 (H legacy_tx 120)); exact E | reflexivity].
  - pose proof (segwit_detection (lit "0200000000")) as H.
    assert (Em : int16 (slice (lit "0200000000") 8 10) = Ok 0) by reflexivity.
    assert (Ef : int16 (slice (lit "0200000000") 10 12) = Raise ValueError) by reflexivity.
    rewrite Em, Ef in H. exact H.
Defined.

(** C10: whenever the byte after the version is 0 and the next one is not,
    the string is decoded as SegWit and only so: it decodes exactly as the
    reads of a SegWit decode whose input count is read after both bytes, at
    cursor 12, so no record with segwit false (in particular no zero-input
    legacy record) is ever returned for it. *)
Theorem zero_marker_is_always_segwit (tx : str) (flag : Z) :
  int16 (slice tx 8 10) = Ok 0 ->
  int16 (slice tx 10 12) = Ok flag ->
  flag <> 0 ->
  check_segwit tx 8 = Ok (true, 12) /\
  (forall t o_end,
      parse_transaction_cursor tx = Ok (t, o_end) <-> decodes_from tx true 12 t o_end) /\
  (forall t, parse_transaction tx = Ok t -> segwit t = true).
Proof.
  intros Hm Hf Hnz.
  pose proof (check_segwit_spec tx 8 0 flag Hm Hf) as Hc.
  assert (Hb : (0 =? 0) && negb (flag =? 0) = true).
  { apply andb_true_iff. split; [reflexivity|].
    apply negb_true_iff, Z.eqb_neq, Hnz. }
  rewrite Hb in Hc. change (8 + 4) with 12 in Hc.
  split; [exact Hc|]. split.
  - intros t o_end. now apply decode_with_decision.
  - intros t Ht. apply parse_transaction_decoded in Ht as [o_end Hd].
    apply parse_transaction_cursor_decoded in Hd.
    apply (decode_with_decision tx true 12 t o_end Hc) in Hd.
    destruct Hd as (vb & ic & o2 & o3 & oc & o4 & o5 & o6 & lb & _ & _ & Hsw & _).
    exact Hsw.
Qed.

Lemma zero_marker_is_always_segwit_witness :
  int16 (slice legacy_zero_input_zero_value_hex 8 10) = Ok 0 /\
  int16 (slice legacy_zero_input_zero_value_hex 10 12) = Ok 1 /\
  1 <> 0 /\
  parse_transaction legacy_zero_input_zero_value_hex
  = Ok legacy_zero_input_zero_value_tx /\
  check_segwit legacy_zero_input_zero_value_hex 8 = Ok (true, 12) /\
  (forall t o_end,
      parse_transaction_cursor legacy_zero_input_zero_value_hex = Ok (t, o_end)
      <-> decodes_from legacy_zero_input_zero_value_hex true 12 t o_end) /\
  (forall t, parse_transaction legacy_zero_input_zero_value_hex = Ok t ->
             segwit t = true).
Proof.
  split; [reflexivity|]. split; [reflexivity|]. split; [lia|].
  split; [vm_compute; reflexivity|].
  apply (zero_marker_is_always_segwit legacy_zero_input_zero_value_hex 1);
    [reflexivity | reflexivity | lia].
Defined.

(** ** Steps of a loop with what each step reads *)

Lemma in_order_with_intro {A} (body : reader A) (Q : Z -> A -> Z -> Prop) (tx : str)
      (o : Z) (l : list A) (o' : Z) :
  in_order body tx o l o' ->
  (forall oa a ob, body tx oa = Ok (a, ob) -> Q oa a ob) ->
  in_order_with body Q tx o l o'.
Proof.
  intros H HQ. induction H; econstructor; eauto.
Qed.

Lemma in_order_with_intro_hex {A} (P : A -> Prop) (body : reader A)
      (Q : Z -> A -> Z -> Prop) (tx : str) (o : Z) (l : list A) (o' : Z) :
  reads P body -> all_hex tx = true -> 0 <= o ->
  in_order body tx o l o' ->
  (forall oa a ob, 0 <= oa -> body tx oa = Ok (a, ob) -> Q oa a ob) ->
  in_order_with body Q tx o l o'.
Proof.
  intros Hr Hhex Ho H HQ. induction H as [o|o o1 o' a l Hb Hrest IH].
  - constructor.
  - destruct (Hr _ _ _ _ Hhex Ho Hb) as (_ & Hle & _).
    assert (Ho1 : 0 <= o1) by lia.
    econstructor; [exact Hb | now apply HQ | now apply IH].
Qed.

(** ** Fixed-width fields *)






(** ** Transaction ids along the cursor *)

Lemma parse_input_txid_field (tx : str) (o : Z) (i : tx_input) (o1 : Z) :
  (all_hex tx = true -> 0 <= o) ->
  parse_input tx o = Ok (i, o1) -> txid_field tx o i o1.
Proof.
  intros Ho Hb.
  destruct (txid_reverses_bytes_read tx o i o1 Hb) as (wire & Hr & Htx & Hlen).
  exists wire. split; [exact Hr|]. split; [exact Htx|]. split; [exact Hlen|].
  destruct (read_bytes_offset _ _ _ _ _ Hr) as [Ef _].
  split.
  { pose proof (fromhex_length _ _ Ef).
    pose proof (slice_length_le tx o (o + 32 * 2) ltac:(lia)). lia. }
  intro Hhex. specialize (Ho Hhex).
  destruct (parse_input_txid tx o i o1 Hhex Ho Hb)
    as (wire' & Hin & Hr' & Hw & Hlw & _ & Hlt).
  assert (Hww : wire' = wire) by congruence. rewrite Hww in Hw, Hlw.
  unfold len. rewrite Hlw, Hlt. repeat split; try assumption; reflexivity.
Qed.

(** C7, as the code has it: for every input string, the txid of every
    decoded input is the hex encoding, in reversed byte order, of the bytes
    [read_bytes] returns for the 32-byte field at that input's own cursor,
    two characters per byte; on an input made of hexadecimal digits these are
    the 32 wire bytes spelled by the 64 characters there, and the txid has 64
    characters. *)
Theorem txid_is_reversed_wire_bytes (tx : str) (t : transaction) :
  parse_transaction tx = Ok t ->
  exists c,
    stages_hold tx t c /\
    in_order_with parse_input (txid_field tx) tx
                  (after_input_count c) (inputs t) (after_inputs c).
Proof.
  intro Ht. apply parse_transaction_decoded in Ht as [o_end Hd].
  apply decoded_stages in Hd as (c & lb & Hs & _ & _ & _).
  exists c. split; [exact Hs|].
  pose proof Hs as (_ & _ & _ & H4 & _).
  destruct (for_range_in_order _ _ _ _ _ _ _ H4) as (l' & Hl' & _ & Hord).
  cbn [app] in Hl'. rewrite Hl'.
  destruct (all_hex tx) eqn:Hhex.
  - pose proof (stages_cursors _ _ _ Hhex Hs) as (G1 & G2 & _).
    assert (G : 0 <= after_input_count c) by lia.
    apply (in_order_with_intro_hex _ _ _ _ _ _ _ parse_input_reads Hhex G Hord).
    intros oa i ob Hoa Hb. apply parse_input_txid_field; [auto | exact Hb].
  - apply (in_order_with_intro _ _ _ _ _ _ Hord).
    intros oa i ob Hb. apply parse_input_txid_field; [|exact Hb].
    intro H. rewrite Hhex in H. discriminate H.
Qed.

Lemma txid_is_reversed_wire_bytes_witness :
  all_hex sample_tx_hex = true /\
  parse_transaction sample_tx_hex = Ok sample_tx /\
  exists c,
    stages_hold sample_tx_hex sample_tx c /\
    in_order_with parse_input (txid_field sample_tx_hex) sample_tx_hex
                  (after_input_count c) (inputs sample_tx) (after_inputs c).
Proof.
  split; [reflexivity|]. split; [vm_compute; reflexivity|].
  apply (txid_is_reversed_wire_bytes sample_tx_hex sample_tx).
  vm_compute. reflexivity.
Defined.

(** C7 fails as stated: a legacy transaction whose txid field is the byte
    ab followed by 62 blanks decodes, and the txid of its input is the 2
    characters ab, not 64 characters for 32 bytes. *)
Lemma blank_txid_field_gives_short_txid :
  all_hex blank_txid_hex = false /\
  len (slice blank_txid_hex 10 74) = 64 /\
  read_bytes blank_txid_hex 10 32 = Ok ([xab], 74) /\
  parse_transaction blank_txid_hex = Ok blank_txid_tx /\
  map txid (inputs blank_txid_tx) = [lit "ab"] /\
  Forall (fun i => len (txid i) = 2 /\ len (txid i) <> 64) (inputs blank_txid_tx).
Proof.
  repeat split; try (vm_compute; reflexivity).
  repeat constructor; vm_compute; congruence.
Qed.
